(** * ImageStitcher: a shallow embedding of [ImageStitcher.node.ts]

    The node fetches a sequence of images from an object store, optionally
    normalises their widths, stacks them vertically on one canvas, encodes
    the canvas and optionally uploads it.  The definitions below follow the
    source function by function; the imaging library (sharp) and the object
    store client (MinIO) are external collaborators and appear as an
    interface, [Backend], with the part of their documented behaviour the
    proofs rely on stated as [BackendLaws].

    Conventions.
    - JavaScript numbers that hold pixel counts (sizes, offsets, spacing,
      target width) are integers, modelled in [Z], so that
      [Math.floor (x / 2)] is [x / 2]; [NaN] is [None] in an [option Z], and
      the alpha channel, a quotient by 255, is a rational.
    - JavaScript strings are modelled as [string]; each [ascii] stands for one
      UTF-16 code unit in the range 0..255.
    - A thrown exception is the [Throw] case of [Result]; the calls to the
      object store are recorded in a trace.
    - The parallel arrays [imageBuffers] and [dimensions] are one list of
      [Image]; the field [left] of an overlay is [left_], the name [left]
      being the alignment. *)

From Stdlib Require Import ZArith List String Ascii Bool Lia QArith.
Import ListNotations.

Local Open Scope string_scope.
Local Open Scope list_scope.
Local Open Scope Z_scope.

(** ** JavaScript string primitives used by the node *)

Module JS.

(** [WhiteSpace] and [LineTerminator] code units below 256: TAB, LF, VT, FF,
    CR, SP and NBSP.  This is the set [String.prototype.trim] and [parseInt]
    strip. *)
Definition isWhiteSpace (c : ascii) : bool :=
  let n := N_of_ascii c in
  ((9 <=? n) && (n <=? 13) || (n =? 32) || (n =? 160))%N.

Fixpoint trimStart (s : string) : string :=
  match s with
  | EmptyString => EmptyString
  | String c r => if isWhiteSpace c then trimStart r else s
  end.

Definition isEmpty (s : string) : bool :=
  match s with EmptyString => true | String _ _ => false end.

Fixpoint trimEnd (s : string) : string :=
  match s with
  | EmptyString => EmptyString
  | String c r =>
      let r' := trimEnd r in
      if isWhiteSpace c && isEmpty r' then EmptyString else String c r'
  end.

(** [s.trim()] *)
Definition trim (s : string) : string := trimEnd (trimStart s).

(** A string is truthy exactly when it is not empty. *)
Definition truthy (s : string) : bool := negb (isEmpty s).

Definition lowerChar (c : ascii) : ascii :=
  let n := N_of_ascii c in
  if ((65 <=? n) && (n <=? 90)
      || (192 <=? n) && (n <=? 222) && negb (n =? 215))%N
  then ascii_of_N (n + 32) else c.

(** [s.toLowerCase()] on code units below 256. *)
Fixpoint toLowerCase (s : string) : string :=
  match s with
  | EmptyString => EmptyString
  | String c r => String (lowerChar c) (toLowerCase r)
  end.

(** [s.replace(c, '')] for a one-character pattern: only the first
    occurrence is removed. *)
Fixpoint replaceFirst (c : ascii) (s : string) : string :=
  match s with
  | EmptyString => EmptyString
  | String d r => if Ascii.eqb d c then r else String d (replaceFirst c r)
  end.

(** [s.slice(i, j)] for [0 <= i <= j]. *)
Definition slice (i j : nat) (s : string) : string := substring i (j - i) s.

Definition hexDigit (c : ascii) : option Z :=
  let n := N_of_ascii c in
  if ((48 <=? n) && (n <=? 57))%N then Some (Z.of_N n - 48)
  else if ((97 <=? n) && (n <=? 102))%N then Some (Z.of_N n - 87)
  else if ((65 <=? n) && (n <=? 70))%N then Some (Z.of_N n - 55)
  else None.

(** The longest prefix of hexadecimal digits, as a number; [acc] is [None]
    until a digit has been read. *)
Fixpoint hexDigits (s : string) (acc : option Z) : option Z :=
  match s with
  | EmptyString => acc
  | String c r =>
      match hexDigit c with
      | Some d =>
          hexDigits r (Some (16 * match acc with Some a => a | None => 0 end + d))
      | None => acc
      end
  end.

Definition stripHexPrefix (s : string) : string :=
  match s with
  | String "0" (String "x" r) => r
  | String "0" (String "X" r) => r
  | _ => s
  end.

(** [parseInt(s, 16)]: leading white space is skipped, then an optional
    sign, then an optional [0x], then the longest run of hexadecimal digits;
    [None] is [NaN]. *)
Definition parseInt16 (s : string) : option Z :=
  let s1 := trimStart s in
  let '(sign, s2) :=
    match s1 with
    | String "-" r => (-1, r)
    | String "+" r => (1, r)
    | _ => (1, s1)
    end in
  match hexDigits (stripHexPrefix s2) None with
  | Some v => Some (sign * v)
  | None => None
  end.

(** [s.split(/\r?\n|,/)]: the pieces between the matches of LF, CR LF and
    comma, scanning from the left; [cur] is the piece being read.  A CR that
    no LF follows is an ordinary character. *)
Definition LF : ascii := ascii_of_N 10.
Definition CR : ascii := ascii_of_N 13.
Definition comma : ascii := ascii_of_N 44.

Fixpoint splitFrom (cur : string) (s : string) : list string :=
  match s with
  | EmptyString => [cur]
  | String c r =>
      if Ascii.eqb c comma || Ascii.eqb c LF then cur :: splitFrom EmptyString r
      else if Ascii.eqb c CR then
        match r with
        | String d r' =>
            if Ascii.eqb d LF then cur :: splitFrom EmptyString r'
            else splitFrom (cur ++ String c EmptyString)%string r
        | EmptyString => splitFrom (cur ++ String c EmptyString)%string r
        end
      else splitFrom (cur ++ String c EmptyString)%string r
  end.

Definition split (s : string) : list string := splitFrom EmptyString s.

End JS.

(** ** Background colour (lines 13-26) *)

Module Color.
Record RGBA : Type := mk { r : option Z; g : option Z; b : option Z; alpha : option Q }.
End Color.

Definition transparent : Color.RGBA := Color.mk (Some 0) (Some 0) (Some 0) (Some (0 # 1))%Q.
Definition opaqueWhite : Color.RGBA :=
  Color.mk (Some 255) (Some 255) (Some 255) (Some (1 # 1))%Q.

Definition parseBackgroundColor (input : option string) : Color.RGBA :=
  match input with
  | None => transparent
  | Some input =>
      if JS.isEmpty input || (JS.toLowerCase input =? "transparent")%string
      then transparent
      else
        let hex := JS.trim (JS.replaceFirst "#" input) in
        let len := String.length hex in
        if (len =? 6)%nat || (len =? 8)%nat then
          let a :=
            if (len =? 8)%nat
            then option_map (fun v => (v # 255)%Q) (JS.parseInt16 (JS.slice 6 8 hex))
            else Some (1 # 1)%Q in
          Color.mk (JS.parseInt16 (JS.slice 0 2 hex))
                   (JS.parseInt16 (JS.slice 2 4 hex))
                   (JS.parseInt16 (JS.slice 4 6 hex)) a
        else opaqueWhite
  end.

(** ** Errors, requests and results *)

(** A thrown JavaScript error: its message and its [context] property
    ([None] when the error object has none; the context holds [itemIndex]). *)
Record JsError : Type := mkError { message : string; context : option (option nat) }.

(** [new NodeOperationError(node, msg, { itemIndex })] *)
Definition NodeOperationError (msg : string) (itemIndex : nat) : JsError :=
  mkError msg (Some (Some itemIndex)).

Inductive Result (A : Type) : Type :=
| Ok (a : A)
| Throw (e : JsError).
Arguments Ok {A} a.
Arguments Throw {A} e.

(** ** Reading a stream into a buffer (lines 28-35)

    The stream is given by the events it emits, in order.  A chunk that is
    not a buffer is given by what [Buffer.from] makes of it.  The promise is
    settled by the first [end] or [error]; [resolve] and [reject] do nothing
    once it is settled. *)
Module Stream.

Definition Bytes : Type := list Byte.byte.

Inductive Chunk : Type :=
| IsBuffer (b : Bytes)
| NotBuffer (converted : Bytes).

Inductive StreamEvent : Type :=
| data (chunk : Chunk)
| end_
| error (e : JsError).

(** [Buffer.isBuffer(chunk) ? chunk : Buffer.from(chunk)] *)
Definition asBuffer (chunk : Chunk) : Bytes :=
  match chunk with
  | IsBuffer b => b
  | NotBuffer converted => converted
  end.

Record Pending : Type := mkPending {
  chunks : list Bytes;
  settled : option (Result Bytes)
}.

(** [resolve(value)] or [reject(error)] on a promise in state [st]. *)
Definition settle (st : Pending) (r : Result Bytes) : Pending :=
  match settled st with
  | None => mkPending (chunks st) (Some r)
  | Some _ => st
  end.

(** The three listeners. *)
Definition on (st : Pending) (ev : StreamEvent) : Pending :=
  match ev with
  | data chunk => mkPending (chunks st ++ [asBuffer chunk]) (settled st)
  | end_ => settle st (Ok (List.concat (chunks st)))
  | error e => settle st (Throw e)
  end.

(** The state of the promise after the events; [None] while it is pending. *)
Definition streamToBuffer (events : list StreamEvent) : option (Result Bytes) :=
  settled (fold_left on events (mkPending [] None)).

End Stream.

Inductive Alignment : Type := left | center | right.
Inductive Format : Type := png | jpeg | webp.

(** The encoder call of lines 323-332: [quality] is passed for jpeg and webp
    only. *)
Inductive Encoding : Type :=
| toPng
| toJpeg (quality : Z)
| toWebp (quality : Z).

(** The [sourceKeys] parameter has type [unknown].  Array elements and the
    last-resort value are given by their [String(...)] coercion. *)
Inductive KeysParam : Type :=
| KeysArray (l : list string)
| KeysString (s : string)
| KeysObject (l : list string)
| KeysOther (s : string)
| KeysNullish.

(** The node parameters of one input item (lines 212-225). *)
Record Params : Type := mkParams {
  sourceBucket : string;
  sourceKeysParam : KeysParam;
  spacing : Z;
  alignment : Alignment;
  normalizeWidth : bool;
  targetWidthParam : Z;
  allowUpscale : bool;
  backgroundColor : string;
  format : Format;
  quality : Z;
  destinationBucket : string;
  destinationKey : string;
  outputBinary : bool;
  binaryPropertyName : string
}.

(** The fallback values given to [getNodeParameter] (lines 212-225). *)
Definition defaultParams : Params :=
  mkParams EmptyString (KeysString EmptyString) 0 left true 0 true "transparent"
    png 80 EmptyString EmptyString true "data".

(** One entry of the parallel arrays [imageBuffers] and [dimensions], which
    the source always pushes to and assigns together. *)
Record Image (Buffer : Type) : Type := mkImage {
  buffer : Buffer;
  width : Z;
  height : Z
}.
Arguments mkImage {Buffer} _ _ _.
Arguments buffer {Buffer} _.
Arguments width {Buffer} _.
Arguments height {Buffer} _.

(** [sharp.OverlayOptions] as the node fills it. *)
Record Overlay (Buffer : Type) : Type := mkOverlay {
  input : Buffer;
  top : Z;
  left_ : Z
}.
Arguments mkOverlay {Buffer} _ _ _.
Arguments input {Buffer} _.
Arguments top {Buffer} _.
Arguments left_ {Buffer} _.

Record Uploaded : Type := mkUploaded {
  up_bucket : string;
  up_key : string;
  up_etag : option string
}.

Record Json : Type := mkJson {
  json_sourceBucket : string;
  json_sourceKeys : list string;
  json_canvas : Z * Z;
  json_uploaded : option Uploaded
}.

Record Binary : Type := mkBinary {
  bin_data : string;
  bin_mimeType : string;
  bin_fileName : string
}.

(** [INodeExecutionData]: a result item, with the binary attachment under
    its property name, or the error placeholder of line 364. *)
Inductive INodeExecutionData : Type :=
| Item (json : Json) (binary : option (string * Binary))
| ErrorItem (error : string) (pairedItem : nat).

(** ** The external collaborators *)

Class Backend : Type := {
  Buffer : Type;
  Store : Type;
  (** [minioClient.getObject] followed by [streamToBuffer]; a read. *)
  getObject : Store -> string -> string -> Result Buffer;
  (** [minioClient.putObject(bucket, key, buffer, length, headers)]: the
      store afterwards and the returned etag, if any. *)
  putObject : Store -> string -> string -> Buffer -> Z -> string ->
              Store * Result (option string);
  (** [sharp(buffer).metadata()]: width and height, either may be missing. *)
  metadata : Buffer -> Result (option Z * option Z);
  (** [sharp(buffer).resize({width, withoutEnlargement}).toBuffer(...)]:
      the new buffer with [info.width] and [info.height]. *)
  resize : Buffer -> Z -> bool -> Result (Buffer * (Z * Z));
  (** [sharp({create}).composite(composites)] encoded and rendered by
      [toBuffer()]. *)
  render : Z -> Z -> Color.RGBA -> list (Overlay Buffer) -> Encoding -> Result Buffer;
  bufferLength : Buffer -> Z;
  toBase64 : Buffer -> string;
  (** The message [new NodeOperationError(node, error, ...)] gives the
      error it wraps: the message of [error], or the description the
      workflow library puts in its place when that message names a system
      error code (ECONNREFUSED, ENOTFOUND, ETIMEDOUT and the like). *)
  wrappedMessage : string -> string
}.

Inductive Event (Buffer : Type) : Type :=
| EvGet (bucket key : string)
| EvPut (bucket key : string) (body : Buffer) (contentType : string).
Arguments EvGet {Buffer} _ _.
Arguments EvPut {Buffer} _ _ _ _.

(** The world outside the node: the object store and the calls made to it
    so far, oldest first. *)
Record World (Buffer Store : Type) : Type := mkWorld {
  store : Store;
  trace : list (Event Buffer)
}.
Arguments mkWorld {Buffer Store} _ _.
Arguments store {Buffer Store} _.
Arguments trace {Buffer Store} _.

(** What the node has computed when it hands the canvas to the encoder;
    [fetched] holds the images as they were before normalisation. *)
Record Layout (Buffer : Type) : Type := mkLayout {
  keys : list string;
  fetched : list (Image Buffer);
  images : list (Image Buffer);
  canvasWidth : Z;
  canvasHeight : Z;
  bg : Color.RGBA;
  composites : list (Overlay Buffer)
}.
Arguments mkLayout {Buffer} _ _ _ _ _ _ _.
Arguments keys {Buffer} _.
Arguments fetched {Buffer} _.
Arguments images {Buffer} _.
Arguments canvasWidth {Buffer} _.
Arguments canvasHeight {Buffer} _.
Arguments bg {Buffer} _.
Arguments composites {Buffer} _.

(** ** Computations that read and write the store and may throw *)

Definition M `{Backend} (A : Type) : Type :=
  World Buffer Store -> Result A * World Buffer Store.

Definition ret `{Backend} {A} (a : A) : M A := fun w => (Ok a, w).
Definition throw `{Backend} {A} (e : JsError) : M A := fun w => (Throw e, w).
Definition bind `{Backend} {A C} (m : M A) (k : A -> M C) : M C :=
  fun w => match m w with
           | (Ok a, w') => k a w'
           | (Throw e, w') => (Throw e, w')
           end.
Definition lift `{Backend} {A} (r : Result A) : M A := fun w => (r, w).

Notation "x <- m ;; k" := (bind m (fun x => k))
  (at level 61, m at next level, right associativity).
Notation "' p <- m ;; k" := (bind m (fun x => let p := x in k))
  (at level 61, p pattern, m at next level, right associativity).

Section Pipeline.
Context `{B : Backend}.

Definition getObjectM (bucket key : string) : M Buffer :=
  fun w => (getObject (store w) bucket key,
            mkWorld (store w) (trace w ++ [EvGet bucket key])).

Definition putObjectM (bucket key : string) (body : Buffer) (contentType : string)
  : M (option string) :=
  fun w =>
    let '(s', r) := putObject (store w) bucket key body (bufferLength body) contentType in
    (r, mkWorld s' (trace w ++ [EvPut bucket key body contentType])).

(** *** Key parsing (lines 227-254) *)

Definition trimmedNonEmpty (l : list string) : list string :=
  filter (fun s => (0 <? String.length s)%nat) (map JS.trim l).

Definition parseKeys (sourceKeysParam : KeysParam) : list string :=
  match sourceKeysParam with
  | KeysArray l => trimmedNonEmpty l
  | KeysString s => trimmedNonEmpty (JS.split s)
  | KeysObject l => trimmedNonEmpty l
  | KeysOther s => trimmedNonEmpty (JS.split s)
  | KeysNullish => []
  end.

(** *** Fetching and reading metadata (lines 263-274) *)

(** [!x] for a number that may be missing. *)
Definition falsy (x : option Z) : bool :=
  match x with Some v => v =? 0 | None => true end.

Fixpoint fetchImages (itemIndex : nat) (bucket : string) (keys : list string)
  : M (list (Image Buffer)) :=
  match keys with
  | [] => ret []
  | key :: rest =>
      buffer <- getObjectM bucket key ;;
      meta <- lift (metadata buffer) ;;
      match meta with
      | (Some w, Some h) =>
          if falsy (Some w) || falsy (Some h)
          then throw (NodeOperationError
                        ("Could not read image metadata for key: " ++ key)%string itemIndex)
          else
            more <- fetchImages itemIndex bucket rest ;;
            ret (mkImage buffer w h :: more)
      | _ => throw (NodeOperationError
                      ("Could not read image metadata for key: " ++ key)%string itemIndex)
      end
  end.

(** *** Width normalisation (lines 277-293) *)

(** [Math.max(...l)]; the empty case ([-Infinity] in JavaScript) is not
    reached, the key list being non-empty. *)
Definition Math_max (l : list Z) : Z :=
  match l with
  | [] => 0
  | x :: xs => fold_left Z.max xs x
  end.

Definition targetWidthOf (normalizeWidth : bool) (targetWidthParam canvasWidth : Z) : Z :=
  if normalizeWidth
  then (if (negb (targetWidthParam =? 0)) && (0 <? targetWidthParam)
        then targetWidthParam else canvasWidth)
  else canvasWidth.

Definition resizeOne (targetWidth : Z) (allowUpscale : bool) (im : Image Buffer)
  : Result (Image Buffer) :=
  if negb (width im =? targetWidth) then
    match resize (buffer im) targetWidth (negb allowUpscale) with
    | Ok (data, (w, h)) => Ok (mkImage data w h)
    | Throw e => Throw e
    end
  else Ok im.

Fixpoint resizeAll (targetWidth : Z) (allowUpscale : bool) (ims : list (Image Buffer))
  : Result (list (Image Buffer)) :=
  match ims with
  | [] => Ok []
  | im :: rest =>
      match resizeOne targetWidth allowUpscale im with
      | Ok im' =>
          match resizeAll targetWidth allowUpscale rest with
          | Ok rest' => Ok (im' :: rest')
          | Throw e => Throw e
          end
      | Throw e => Throw e
      end
  end.

(** The images and the canvas width after the normalisation block. *)
Definition normalize (normalizeWidth : bool) (targetWidthParam : Z) (allowUpscale : bool)
  (ims : list (Image Buffer)) : Result (list (Image Buffer) * Z) :=
  let canvasWidth := Math_max (map width ims) in
  let targetWidth := targetWidthOf normalizeWidth targetWidthParam canvasWidth in
  if normalizeWidth then
    match resizeAll targetWidth allowUpscale ims with
    | Ok ims' => Ok (ims', targetWidth)
    | Throw e => Throw e
    end
  else Ok (ims, canvasWidth).

(** *** Canvas height (line 295) *)

Definition canvasHeightOf (keys : list string) (spacing : Z) (ims : list (Image Buffer)) : Z :=
  fold_left (fun acc d => acc + height d) ims 0
  + Z.max 0 ((Z.of_nat (List.length keys) - 1) * spacing).

(** *** Placement (lines 307-319) *)

Definition leftOffset (alignment : Alignment) (canvasWidth width : Z) : Z :=
  match alignment with
  | center => (canvasWidth - width) / 2
  | right => canvasWidth - width
  | left => 0
  end.

(** The loop from the current image on; [rest] is empty exactly when the
    index is [imageBuffers.length - 1]. *)
Fixpoint compositesFrom (alignment : Alignment) (canvasWidth spacing : Z)
  (offsetTop : Z) (ims : list (Image Buffer)) : list (Overlay Buffer) :=
  match ims with
  | [] => []
  | im :: rest =>
      mkOverlay (buffer im) offsetTop (leftOffset alignment canvasWidth (width im))
      :: compositesFrom alignment canvasWidth spacing
           (offsetTop + (height im + match rest with [] => 0 | _ :: _ => spacing end))
           rest
  end.

Definition compositesOf (alignment : Alignment) (canvasWidth spacing : Z)
  (ims : list (Image Buffer)) : list (Overlay Buffer) :=
  compositesFrom alignment canvasWidth spacing 0 ims.

(** *** The encoder call and the MIME type (lines 322-332) *)

Definition encodingOf (format : Format) (quality : Z) : Encoding :=
  match format with
  | png => toPng
  | jpeg => toJpeg quality
  | webp => toWebp quality
  end.

Definition mimeTypeOf (format : Format) : string :=
  match format with
  | png => "image/png"
  | jpeg => "image/jpeg"
  | webp => "image/webp"
  end.

Definition formatName (format : Format) : string :=
  match format with
  | png => "png"
  | jpeg => "jpeg"
  | webp => "webp"
  end.

(** *** One request up to the placements (lines 212-319) *)

Definition layoutOf (itemIndex : nat) (p : Params) : M (Layout Buffer) :=
  let keys := parseKeys (sourceKeysParam p) in
  if negb (JS.truthy (sourceBucket p)) then
    throw (NodeOperationError "Source bucket is required" itemIndex)
  else if (List.length keys =? 0)%nat then
    throw (NodeOperationError "At least one source key is required" itemIndex)
  else
    fetched <- fetchImages itemIndex (sourceBucket p) keys ;;
    '(ims, canvasWidth) <-
       lift (normalize (normalizeWidth p) (targetWidthParam p) (allowUpscale p) fetched) ;;
    let canvasHeight := canvasHeightOf keys (spacing p) ims in
    let bg := parseBackgroundColor (Some (backgroundColor p)) in
    let composites := compositesOf (alignment p) canvasWidth (spacing p) ims in
    ret (mkLayout keys fetched ims canvasWidth canvasHeight bg composites).

(** *** Encoding (lines 321-334) *)

Definition encode (p : Params) (l : Layout Buffer) : M Buffer :=
  lift (render (canvasWidth l) (canvasHeight l) (bg l) (composites l)
          (encodingOf (format p) (quality p))).

(** *** Publishing and the result item (lines 336-361) *)

Definition wantsUpload (p : Params) : bool :=
  JS.truthy (destinationBucket p) && JS.truthy (destinationKey p).

Definition publish (p : Params) (outBuffer : Buffer) : M (option (option string)) :=
  if wantsUpload p then
    etag <- putObjectM (destinationBucket p) (destinationKey p)
              outBuffer (mimeTypeOf (format p)) ;;
    ret (Some etag)
  else ret None.

Definition newItem (p : Params) (l : Layout Buffer) (outBuffer : Buffer)
  (uploaded : option (option string)) : INodeExecutionData :=
  Item
    (mkJson (sourceBucket p) (keys l) (canvasWidth l, canvasHeight l)
       (if wantsUpload p
        then Some (mkUploaded (destinationBucket p) (destinationKey p)
                     (match uploaded with Some etag => etag | None => None end))
        else None))
    (if outputBinary p then
       Some (binaryPropertyName p,
             mkBinary (toBase64 outBuffer) (mimeTypeOf (format p))
               (if JS.truthy (destinationKey p) then destinationKey p
                else ("stitched." ++ formatName (format p))%string))
     else None).

(** The body of the [try] block for one item. *)
Definition processItem (itemIndex : nat) (p : Params) : M INodeExecutionData :=
  l <- layoutOf itemIndex p ;;
  outBuffer <- encode p l ;;
  uploaded <- publish p outBuffer ;;
  ret (newItem p l outBuffer uploaded).

(** *** The batch loop (lines 210-375) *)

(** The error that leaves [execute] when the batch is aborted (lines
    367-371): an error with a context has its [itemIndex] overwritten and is
    thrown again, any other is wrapped in a [NodeOperationError] with the
    item index, whose message is the one the library derives from it. *)
Definition rethrow (error : JsError) (itemIndex : nat) : JsError :=
  match context error with
  | Some _ => mkError (message error) (Some (Some itemIndex))
  | None => NodeOperationError (wrappedMessage (message error)) itemIndex
  end.

Fixpoint executeFrom (continueOnFail : bool) (itemIndex : nat) (items : list Params)
  (returnData : list INodeExecutionData) : M (list INodeExecutionData) :=
  match items with
  | [] => ret returnData
  | p :: rest =>
      fun w =>
        match processItem itemIndex p w with
        | (Ok item, w') =>
            executeFrom continueOnFail (S itemIndex) rest (returnData ++ [item]) w'
        | (Throw error, w') =>
            if continueOnFail then
              executeFrom continueOnFail (S itemIndex) rest
                (returnData ++ [ErrorItem (message error) itemIndex]) w'
            else (Throw (rethrow error itemIndex), w')
        end
  end.

Definition execute (continueOnFail : bool) (items : list Params)
  : M (list INodeExecutionData) :=
  executeFrom continueOnFail 0 items [].

End Pipeline.

(** ** What the proofs assume of the imaging library

    [metadata] reports sizes that are not negative; a resize returns a
    positive height, the requested width when it scales, and the size the
    image had when [withoutEnlargement] is set and the image is narrower than
    the requested width. *)
Class BackendLaws (B : Backend) : Prop := {
  metadata_nonneg : forall b w h,
    metadata b = Ok (Some w, Some h) -> 0 <= w /\ 0 <= h;
  resize_width : forall b w h t withoutEnlargement b' w' h',
    metadata b = Ok (Some w, Some h) ->
    resize b t withoutEnlargement = Ok (b', (w', h')) ->
    if withoutEnlargement && (w <? t) then w' = w /\ h' = h else w' = t;
  resize_height_pos : forall b t withoutEnlargement b' w' h',
    resize b t withoutEnlargement = Ok (b', (w', h')) -> 0 < h'
}.

(** ** An in-memory backend

    A buffer is a picture reduced to its size, the store is an association
    list, and rendering returns a picture of the canvas size.  It is used to
    run the pipeline on concrete requests. *)
Module Fake.

Definition Buf : Type := Z * Z.
Definition Objects : Type := list ((string * string) * Buf).

Definition sameName (a b : string * string) : bool :=
  (fst a =? fst b)%string && (snd a =? snd b)%string.

Fixpoint lookup (s : Objects) (bucket key : string) : Result Buf :=
  match s with
  | [] => Throw (mkError "The specified key does not exist." None)
  | (name, body) :: rest =>
      if sameName name (bucket, key) then Ok body else lookup rest bucket key
  end.

Definition put (s : Objects) (bucket key : string) (body : Buf) (len : Z)
  (contentType : string) : Objects * Result (option string) :=
  (((bucket, key), body) :: s, Ok (Some "etag-1")).

Definition size (b : Buf) : Result (option Z * option Z) :=
  Ok (Some (Z.abs (fst b)), Some (Z.abs (snd b))).

(** Height scaled in proportion and rounded to the nearest pixel, at least
    one. *)
Definition scale (b : Buf) (t : Z) (withoutEnlargement : bool)
  : Result (Buf * (Z * Z)) :=
  let w := Z.abs (fst b) in
  let h := Z.abs (snd b) in
  if (t <=? 0) || (w =? 0) || (h =? 0) then
    Throw (mkError "Expected positive integer for width" None)
  else if withoutEnlargement && (w <? t) then Ok (b, (w, h))
  else
    let h' := Z.max 1 ((2 * h * t + w) / (2 * w)) in
    Ok ((t, h'), (t, h')).

Definition draw (canvasWidth canvasHeight : Z) (bg : Color.RGBA)
  (composites : list (Overlay Buf)) (enc : Encoding) : Result Buf :=
  Ok (canvasWidth, canvasHeight).

(** A refused connection is described; any other message is kept. *)
Definition describe (msg : string) : string :=
  match index 0 "ECONNREFUSED" msg with
  | Some _ => "The service refused the connection - perhaps it is offline"
  | None => msg
  end.

#[export] Instance backend : Backend := {|
  Buffer := Buf;
  Store := Objects;
  getObject := lookup;
  putObject := put;
  metadata := size;
  resize := scale;
  render := draw;
  bufferLength := fun _ => 0;
  toBase64 := fun _ => "base64";
  wrappedMessage := describe
|}.

(** The same backend with a store that refuses every upload. *)
Definition deny (s : Objects) (bucket key : string) (body : Buf) (len : Z)
  (contentType : string) : Objects * Result (option string) :=
  (s, Throw (mkError "Access Denied." None)).

Definition readOnly : Backend := {|
  Buffer := Buf;
  Store := Objects;
  getObject := lookup;
  putObject := deny;
  metadata := size;
  resize := scale;
  render := draw;
  bufferLength := fun _ => 0;
  toBase64 := fun _ => "base64";
  wrappedMessage := describe
|}.

(** The same backend with an encoder that fails on every canvas. *)
Definition failingDraw (canvasWidth canvasHeight : Z) (bg : Color.RGBA)
  (composites : list (Overlay Buf)) (enc : Encoding) : Result Buf :=
  Throw (mkError "Input image exceeds pixel limit" None).

Definition noEncoder : Backend := {|
  Buffer := Buf;
  Store := Objects;
  getObject := lookup;
  putObject := put;
  metadata := size;
  resize := scale;
  render := failingDraw;
  bufferLength := fun _ => 0;
  toBase64 := fun _ => "base64";
  wrappedMessage := describe
|}.

(** Two pictures of 100x50 and 100x80, and one of 60x30. *)
Definition shelf : World Buffer Store :=
  mkWorld (Buffer := Buf) (Store := Objects)
    [(("in", "a.png"), (100, 50)); (("in", "b.png"), (100, 80));
     (("in", "c.png"), (60, 30))]
    [].

(** A store whose only object has no width. *)
Definition emptyPicture : World Buffer Store :=
  mkWorld (Buffer := Buf) (Store := Objects) [(("in", "empty.png"), (0, 5))] [].

Definition request (keys : string) (spacing : Z) (alignment : Alignment) : Params :=
  mkParams "in" (KeysString keys) spacing alignment true 0 true "transparent"
    png 80 EmptyString EmptyString true "data".

(** The same with [allowUpscale] off. *)
Definition requestNoUpscale (keys : string) (alignment : Alignment) : Params :=
  mkParams "in" (KeysString keys) 0 alignment true 0 false "transparent"
    png 80 EmptyString EmptyString true "data".

(** A request for [a.png] and [b.png] with a destination. *)
Definition requestTo (bucket key : string) : Params :=
  mkParams "in" (KeysString "a.png,b.png") 10 left true 0 true "transparent"
    png 80 bucket key true "data".

(** Three requests; the second names an object the store does not hold. *)
Definition batch : list Params :=
  [request "a.png" 0 left; request "zzz.png" 0 left; request "b.png" 0 left].

End Fake.

(** * Vocabulary of the statements *)

(** ** Strings and keys *)

Module Text.
Import JS.

Definition allAscii : list ascii := map ascii_of_nat (seq 0 256).

(** No comma and no line feed occurs in the string. *)
Fixpoint sepFree (s : string) : bool :=
  match s with
  | EmptyString => true
  | String c r => negb (Ascii.eqb c comma || Ascii.eqb c LF) && sepFree r
  end.

Definition startsWithLF (s : string) : bool :=
  match s with String c _ => Ascii.eqb c LF | EmptyString => false end.

Fixpoint endsWithCR (s : string) : bool :=
  match s with
  | EmptyString => false
  | String c EmptyString => Ascii.eqb c CR
  | String _ r => endsWithCR r
  end.

(** The separators the pattern matches. *)
Definition isSeparator (sep : string) : Prop :=
  sep = String comma EmptyString \/ sep = String LF EmptyString
  \/ sep = String CR (String LF EmptyString).

(** [keys.join(sep)] *)
Fixpoint join (sep : string) (ks : list string) : string :=
  match ks with
  | [] => EmptyString
  | [k] => k
  | k :: rest => (k ++ sep ++ join sep rest)%string
  end.

(** A key as the node returns it: not empty, trimmed, without separator. *)
Definition cleanKey (k : string) : Prop :=
  k <> EmptyString /\ trim k = k /\ sepFree k = true.



(** Only white space. *)
Fixpoint allWhite (s : string) : bool :=
  match s with
  | EmptyString => true
  | String c r => isWhiteSpace c && allWhite r
  end.

(** Only white space that is not a line break: padding inside a line. *)
Fixpoint blank (s : string) : bool :=
  match s with
  | EmptyString => true
  | String c r =>
      isWhiteSpace c && negb (Ascii.eqb c LF) && negb (Ascii.eqb c CR) && blank r
  end.

(** Only white space and commas. *)
Fixpoint whiteOrComma (s : string) : bool :=
  match s with
  | EmptyString => true
  | String c r => (isWhiteSpace c || Ascii.eqb c comma) && whiteOrComma r
  end.

(** [x] is the key [k] with padding on both sides. *)
Definition paddedFrom (k x : string) : Prop :=
  exists pre post, blank pre = true /\ blank post = true
                   /\ x = (pre ++ k ++ post)%string.

End Text.

(** ** Sums, worlds and layouts *)

Definition sumZ (l : list Z) : Z := fold_right Z.add 0 l.

(** Two images, given by their top offsets and heights, overlap: some pixel
    row belongs to both. *)
Definition sharesRow (top1 height1 top2 height2 : Z) : Prop :=
  exists y, top1 <= y < top1 + height1 /\ top2 <= y < top2 + height2.

Definition withQuality (q : Z) (p : Params) : Params :=
  mkParams (sourceBucket p) (sourceKeysParam p) (spacing p) (alignment p)
    (normalizeWidth p) (targetWidthParam p) (allowUpscale p) (backgroundColor p)
    (format p) q (destinationBucket p) (destinationKey p) (outputBinary p)
    (binaryPropertyName p).

(** The default request for a bucket and a key list. *)
Definition defaultRequest (bucket : string) (keysParam : KeysParam) : Params :=
  mkParams bucket keysParam (spacing defaultParams) (alignment defaultParams)
    (normalizeWidth defaultParams) (targetWidthParam defaultParams)
    (allowUpscale defaultParams) (backgroundColor defaultParams)
    (format defaultParams) (quality defaultParams)
    (destinationBucket defaultParams) (destinationKey defaultParams)
    (outputBinary defaultParams) (binaryPropertyName defaultParams).

Definition withSpacing (s : Z) (p : Params) : Params :=
  mkParams (sourceBucket p) (sourceKeysParam p) s (alignment p) (normalizeWidth p)
    (targetWidthParam p) (allowUpscale p) (backgroundColor p) (format p) (quality p)
    (destinationBucket p) (destinationKey p) (outputBinary p) (binaryPropertyName p).

Section Vocabulary.
Context `{B : Backend}.

Definition isPut (ev : Event Buffer) : bool :=
  match ev with EvPut _ _ _ _ => true | EvGet _ _ => false end.

(** The uploads among the calls made so far. *)
Definition puts (w : World Buffer Store) : list (Event Buffer) :=
  filter isPut (trace w).

(** A computation is quiet when it leaves the store as it was and makes no
    upload. *)
Definition quiet {A} (m : M A) : Prop :=
  forall w r w', m w = (r, w') -> store w' = store w /\ puts w' = puts w.

Definition readable (im : Image Buffer) : Prop :=
  metadata (buffer im) = Ok (Some (width im), Some (height im))
  /\ width im <> 0 /\ height im <> 0.

(** The image fetched for a key holds the object the store returns for that
    key and the size its metadata reports. *)
Definition fetchedFrom (s : Store) (bucket key : string) (im : Image Buffer) : Prop :=
  getObject s bucket key = Ok (buffer im)
  /\ metadata (buffer im) = Ok (Some (width im), Some (height im))
  /\ width im <> 0 /\ height im <> 0.

(** The top offset the loop gives the image of index [k]. *)
Definition topOf (s : Z) (ims : list (Image Buffer)) (k : nat) : Z :=
  sumZ (map height (firstn k ims)) + Z.of_nat k * s.

(** How a normalised image relates to the fetched one, for canvas width
    [cw]. *)
Definition normalisedFrom (nw up : bool) (cw : Z) (im im' : Image Buffer) : Prop :=
  0 < height im'
  /\ if nw
     then (if negb up && (width im <? cw)
           then width im' = width im /\ height im' = height im
           else width im' = cw)
     else im' = im.

(** The request got as far as an encoded canvas. *)
Definition encoded (i : nat) (p : Params) (w : World Buffer Store)
  (l : Layout Buffer) (w1 : World Buffer Store) (out : Buffer) : Prop :=
  layoutOf i p w = (Ok l, w1) /\ encode p l w1 = (Ok out, w1).

(** What one item leaves in [returnData] when failures are recorded. *)
Definition outcome (itemIndex : nat) (p : Params) (w : World Buffer Store)
  : INodeExecutionData :=
  match fst (processItem itemIndex p w) with
  | Ok item => item
  | Throw error => ErrorItem (message error) itemIndex
  end.

(** The world after the items have been processed one after the other,
    each from the world the one before it left. *)
Fixpoint worldAfter (itemIndex : nat) (items : list Params) (w : World Buffer Store)
  : World Buffer Store :=
  match items with
  | [] => w
  | p :: rest => worldAfter (S itemIndex) rest (snd (processItem itemIndex p w))
  end.

Fixpoint outcomesFrom (itemIndex : nat) (items : list Params) (w : World Buffer Store)
  : list INodeExecutionData :=
  match items with
  | [] => []
  | p :: rest =>
      outcome itemIndex p w
      :: outcomesFrom (S itemIndex) rest (snd (processItem itemIndex p w))
  end.

(** No item before index [k] fails. *)
Definition succeedUpTo (i : nat) (items : list Params) (w : World Buffer Store) (k : nat)
  : Prop :=
  forall j q, (j < k)%nat -> nth_error items j = Some q ->
    exists item, fst (processItem (i + j) q (worldAfter i (firstn j items) w)) = Ok item.

End Vocabulary.

Ltac run := vm_compute; reflexivity.

(** * Properties *)

(** ** The pipeline on sample requests *)

Example bg_red :
  parseBackgroundColor (Some "#ff0000")
  = Color.mk (Some 255) (Some 0) (Some 0) (Some (1 # 1))%Q.
Proof. reflexivity. Qed.

Example bg_half_transparent :
  parseBackgroundColor (Some "#00ff0080")
  = Color.mk (Some 0) (Some 255) (Some 0) (Some (128 # 255))%Q.
Proof. reflexivity. Qed.

Example split_lines :
  JS.split (String "a" (String JS.CR (String JS.LF (String "b" (String "," "c")))))
  = ["a"; "b"; "c"].
Proof. reflexivity. Qed.

Example stitch_two :
  match fst (layoutOf 0 (Fake.request "a.png,b.png" 10 left) Fake.shelf) with
  | Ok l => (canvasWidth l, canvasHeight l, map top (composites l)) = (100, 140, [0; 60])
  | Throw _ => False
  end.
Proof. vm_compute. reflexivity. Qed.

(** ** Strings *)

Module JSFacts.
Import JS Text.

Lemma allAscii_complete (c : ascii) : In c allAscii.
Proof.
  rewrite <- (ascii_nat_embedding c).
  apply in_map, in_seq.
  pose proof (nat_ascii_bounded c). lia.
Qed.

(** A boolean property of characters holds of all of them once it has been
    checked on the 256 of them. *)
Lemma by_cases (P : ascii -> bool) :
  forallb P allAscii = true -> forall c, P c = true.
Proof.
  intros H c. rewrite forallb_forall in H. apply H, allAscii_complete.
Qed.

Lemma hexDigit_not_space c d : hexDigit c = Some d -> isWhiteSpace c = false.
Proof.
  intros H.
  assert (E : forall a,
    (match hexDigit a with Some _ => negb (isWhiteSpace a) | None => true end) = true)
    by (apply by_cases; vm_compute; reflexivity).
  specialize (E c). rewrite H in E. now apply negb_true_iff.
Qed.

Lemma parseInt16_two c1 c2 d1 d2 :
  hexDigit c1 = Some d1 -> hexDigit c2 = Some d2 ->
  parseInt16 (String c1 (String c2 EmptyString)) = Some (16 * d1 + d2).
Proof.
  intros H1 H2.
  pose (ok := fun a b =>
    match hexDigit a, hexDigit b with
    | Some x, Some y =>
        match parseInt16 (String a (String b EmptyString)) with
        | Some v => v =? 16 * x + y
        | None => false
        end
    | _, _ => true
    end).
  assert (E : forall a, forallb (ok a) allAscii = true)
    by (apply (by_cases (fun a => forallb (ok a) allAscii)); vm_compute; reflexivity).
  specialize (E c1). apply by_cases with (c := c2) in E.
  unfold ok in E. rewrite H1, H2 in E.
  destruct (parseInt16 _); [ | discriminate ].
  apply Z.eqb_eq in E. now subst.
Qed.

Lemma hexDigit_range c d : hexDigit c = Some d -> 0 <= d < 16.
Proof.
  intros H.
  assert (E : forall a,
    (match hexDigit a with Some x => (0 <=? x) && (x <? 16) | None => true end) = true)
    by (apply by_cases; vm_compute; reflexivity).
  specialize (E c). rewrite H in E. apply andb_true_iff in E. lia.
Qed.

Lemma trimEnd_idem s : trimEnd (trimEnd s) = trimEnd s.
Proof.
  induction s as [ | c r IH ]; [ reflexivity | ].
  cbn [trimEnd].
  destruct (isWhiteSpace c && isEmpty (trimEnd r)) eqn:E; [ reflexivity | ].
  cbn [trimEnd]. rewrite IH, E. reflexivity.
Qed.



Lemma append_empty_r (s : string) : (s ++ EmptyString)%string = s.
Proof. induction s; cbn; congruence. Qed.

Lemma append_assoc (a b c : string) : ((a ++ b) ++ c)%string = (a ++ b ++ c)%string.
Proof. induction a; cbn; congruence. Qed.

(** Reading a separator-free stretch [k] moves it into the current piece,
    unless its final CR would pair with a following LF. *)
Lemma splitFrom_app k : forall cur s,
  sepFree k = true ->
  endsWithCR k && startsWithLF s = false ->
  splitFrom cur (k ++ s) = splitFrom (cur ++ k) s.
Proof.
  induction k as [ | c r IH ]; intros cur s Hk Hcr.
  - cbn. now rewrite append_empty_r.
  - cbn [sepFree] in Hk. apply andb_true_iff in Hk as [Hc Hr].
    apply negb_true_iff in Hc.
    assert (Hnext : splitFrom cur (String c r ++ s)
                    = splitFrom (cur ++ String c EmptyString) (r ++ s)).
    { cbn [append splitFrom]. rewrite Hc.
      destruct (Ascii.eqb c CR) eqn:Ecr; [ | reflexivity ].
      destruct r as [ | d r' ].
      - cbn [append]. cbn [endsWithCR] in Hcr. rewrite Ecr in Hcr.
        destruct s as [ | e s' ]; [ reflexivity | ].
        cbn [andb startsWithLF] in Hcr. now rewrite Hcr.
      - cbn [append]. cbn [sepFree] in Hr.
        apply andb_true_iff in Hr as [Hd _]. apply negb_true_iff in Hd.
        apply orb_false_iff in Hd as [_ Hd]. now rewrite Hd. }
    rewrite Hnext, IH.
    + now rewrite append_assoc.
    + exact Hr.
    + destruct r; [ reflexivity | exact Hcr ].
Qed.

Lemma splitFrom_separator sep cur s :
  isSeparator sep -> splitFrom cur (sep ++ s) = cur :: splitFrom EmptyString s.
Proof. intros [ -> | [ -> | -> ] ]; reflexivity. Qed.

Lemma trimmed_not_endsWithCR k : trimEnd k = k -> endsWithCR k = false.
Proof.
  induction k as [ | c r IH ]; [ reflexivity | ].
  cbn [trimEnd]. destruct r as [ | d r' ].
  - cbn [trimEnd isEmpty]. rewrite andb_true_r.
    destruct (isWhiteSpace c) eqn:E; [ discriminate | ].
    intros _. cbn [endsWithCR].
    destruct (Ascii.eqb c CR) eqn:Ecr; [ | reflexivity ].
    apply Ascii.eqb_eq in Ecr. subst c. discriminate E.
  - destruct (isWhiteSpace c && isEmpty (trimEnd (String d r'))) eqn:E; [ discriminate | ].
    intros H. injection H as H. exact (IH H).
Qed.

Lemma trim_fixed_trimEnd k : trim k = k -> trimEnd k = k.
Proof. intros H. rewrite <- H. unfold trim. apply trimEnd_idem. Qed.


End JSFacts.

(** ** The pipeline, stage by stage *)

Lemma sumZ_cons x l : sumZ (x :: l) = x + sumZ l.
Proof. reflexivity. Qed.

Section PipelineFacts.
Context `{B : Backend}.

Lemma bind_Ok {A C} (m : M A) (k : A -> M C) w c w' :
  bind m k w = (Ok c, w') ->
  exists a w1, m w = (Ok a, w1) /\ k a w1 = (Ok c, w').
Proof.
  unfold bind. destruct (m w) as [[a | e] w1]; intros H; [ eauto | discriminate ].
Qed.

Lemma truthy_true s : JS.truthy s = true <-> s <> EmptyString.
Proof. destruct s; cbn; split; congruence. Qed.

Lemma fold_heights (ims : list (Image Buffer)) : forall a,
  fold_left (fun acc d => acc + height d) ims a = a + sumZ (map height ims).
Proof.
  induction ims as [ | im rest IH ]; intros a; cbn [fold_left map].
  - cbn. lia.
  - rewrite IH, sumZ_cons. lia.
Qed.

Lemma sum_firstn_succ (ims : list (Image Buffer)) : forall k im,
  nth_error ims k = Some im ->
  sumZ (map height (firstn (S k) ims)) = sumZ (map height (firstn k ims)) + height im.
Proof.
  induction ims as [ | im0 rest IH ]; intros [ | k ] im H; try discriminate.
  - injection H as ->. cbn. lia.
  - cbn [nth_error] in H. specialize (IH _ _ H).
    change (firstn (S (S k)) (im0 :: rest)) with (im0 :: firstn (S k) rest).
    change (firstn (S k) (im0 :: rest)) with (im0 :: firstn k rest).
    cbn [map]. rewrite !sumZ_cons. lia.
Qed.

(** *** Fetching *)

Lemma quiet_ret {A} (a : A) : quiet (ret a).
Proof. intros w r w' H. injection H as _ <-. auto. Qed.

Lemma quiet_throw {A} e : quiet (throw (A := A) e).
Proof. intros w r w' H. injection H as _ <-. auto. Qed.

Lemma quiet_lift {A} (x : Result A) : quiet (lift x).
Proof. intros w r w' H. injection H as _ <-. auto. Qed.

Lemma quiet_bind {A C} (m : M A) (k : A -> M C) :
  quiet m -> (forall a, quiet (k a)) -> quiet (bind m k).
Proof.
  intros Hm Hk w r w' H. unfold bind in H.
  destruct (m w) as [[a | e] w1] eqn:E; apply Hm in E as [E1 E2].
  - apply Hk in H as [H1 H2]. split; congruence.
  - injection H as _ <-. auto.
Qed.

Lemma quiet_getObjectM bucket key : quiet (getObjectM bucket key).
Proof.
  intros w r w' H. unfold getObjectM in H. injection H as _ <-.
  unfold puts. cbn. rewrite filter_app. cbn. now rewrite app_nil_r.
Qed.

Lemma quiet_fetchImages i bucket ks : quiet (fetchImages i bucket ks).
Proof.
  induction ks as [ | k rest IH ]; cbn [fetchImages].
  - apply quiet_ret.
  - apply quiet_bind; [ apply quiet_getObjectM | intros buf ].
    apply quiet_bind; [ apply quiet_lift | intros [[mw | ] [mh | ]] ];
      try apply quiet_throw.
    destruct (falsy (Some mw) || falsy (Some mh)); [ apply quiet_throw | ].
    apply quiet_bind; [ exact IH | intros more; apply quiet_ret ].
Qed.

Lemma quiet_layoutOf i p : quiet (layoutOf i p).
Proof.
  unfold layoutOf.
  destruct (negb (JS.truthy (sourceBucket p))); [ apply quiet_throw | ].
  destruct (List.length (parseKeys (sourceKeysParam p)) =? 0)%nat; [ apply quiet_throw | ].
  apply quiet_bind; [ apply quiet_fetchImages | intros fs ].
  apply quiet_bind; [ apply quiet_lift | intros [ims cw]; apply quiet_ret ].
Qed.

Lemma quiet_encode p l : quiet (encode p l).
Proof. apply quiet_lift. Qed.

Lemma fetchImages_Ok i bucket ks : forall w ims w',
  fetchImages i bucket ks w = (Ok ims, w') ->
  List.length ims = List.length ks
  /\ trace w' = trace w ++ map (EvGet bucket) ks
  /\ Forall readable ims.
Proof.
  induction ks as [ | k rest IH ]; intros w ims w' H; cbn [fetchImages] in H.
  - injection H as <- <-. cbn. rewrite app_nil_r. auto.
  - apply bind_Ok in H as (buf & w1 & Hget & H).
    apply bind_Ok in H as (meta & w2 & Hmeta & H).
    unfold getObjectM in Hget. unfold lift in Hmeta.
    injection Hmeta as Hmeta <-. injection Hget as Hget <-.
    destruct meta as [[mw | ] [mh | ]]; try discriminate.
    destruct (falsy (Some mw) || falsy (Some mh)) eqn:Efalsy; [ discriminate | ].
    apply bind_Ok in H as (more & w3 & Hmore & H).
    injection H as <- <-.
    apply IH in Hmore as (Hlen & Htrace & Hall).
    cbn [trace] in Htrace.
    repeat split.
    + cbn. now rewrite Hlen.
    + rewrite Htrace, <- app_assoc. reflexivity.
    + constructor; [ | exact Hall ].
      apply orb_false_iff in Efalsy as [Hw Hh]. cbn in Hw, Hh.
      apply Z.eqb_neq in Hw, Hh. red. cbn. auto.
Qed.

(** *** Normalisation *)

Lemma resizeAll_Forall2 t up (ims : list (Image Buffer)) : forall ims',
  resizeAll t up ims = Ok ims' ->
  Forall2 (fun im im' => resizeOne t up im = Ok im') ims ims'.
Proof.
  induction ims as [ | im rest IH ]; intros ims' H; cbn in H.
  - injection H as <-. constructor.
  - destruct (resizeOne t up im) as [im' | e] eqn:E1; [ | discriminate ].
    destruct (resizeAll t up rest) as [rest' | e]; [ | discriminate ].
    injection H as <-. constructor; auto.
Qed.

Lemma fold_max_ge (xs : list Z) : forall x,
  x <= fold_left Z.max xs x /\ Forall (fun y => y <= fold_left Z.max xs x) xs.
Proof.
  induction xs as [ | y rest IH ]; intros x; cbn.
  - split; [ lia | constructor ].
  - destruct (IH (Z.max x y)) as [H1 H2]. split; [ lia | ].
    constructor; [ lia | exact H2 ].
Qed.

Lemma fold_max_in (xs : list Z) : forall x,
  fold_left Z.max xs x = x \/ In (fold_left Z.max xs x) xs.
Proof.
  induction xs as [ | y rest IH ]; intros x; cbn; [ now left | ].
  destruct (IH (Z.max x y)) as [H | H].
  - rewrite H. destruct (Z.max_spec x y) as [[_ ->] | [_ ->]]; auto.
  - auto.
Qed.

(** [Math_max] of a non-empty list is its greatest element. *)
Lemma Math_max_spec (xs : list Z) :
  xs <> [] -> In (Math_max xs) xs /\ Forall (fun y => y <= Math_max xs) xs.
Proof.
  destruct xs as [ | x rest ]; [ congruence | intros _ ].
  cbn [Math_max]. destruct (fold_max_ge rest x) as [H1 H2].
  split.
  - destruct (fold_max_in rest x) as [-> | H]; [ now left | now right ].
  - constructor; assumption.
Qed.

(** *** The layout a successful request has computed *)

Lemma layoutOf_Ok i p w l w' :
  layoutOf i p w = (Ok l, w') ->
  sourceBucket p <> EmptyString
  /\ keys l = parseKeys (sourceKeysParam p)
  /\ keys l <> []
  /\ fetchImages i (sourceBucket p) (keys l) w = (Ok (fetched l), w')
  /\ normalize (normalizeWidth p) (targetWidthParam p) (allowUpscale p) (fetched l)
     = Ok (images l, canvasWidth l)
  /\ canvasHeight l = canvasHeightOf (keys l) (spacing p) (images l)
  /\ bg l = parseBackgroundColor (Some (backgroundColor p))
  /\ composites l = compositesOf (alignment p) (canvasWidth l) (spacing p) (images l).
Proof.
  unfold layoutOf.
  destruct (JS.truthy (sourceBucket p)) eqn:Eb; cbn [negb]; [ | discriminate ].
  destruct (List.length (parseKeys (sourceKeysParam p)) =? 0)%nat eqn:Ek; [ discriminate | ].
  intros H.
  apply bind_Ok in H as (fs & w1 & Hfetch & H).
  apply bind_Ok in H as ([ims cw] & w2 & Hnorm & H).
  unfold lift in Hnorm. injection Hnorm as Hnorm <-.
  injection H as <- <-. cbn.
  apply truthy_true in Eb. apply Nat.eqb_neq in Ek.
  repeat split; auto.
  intros E. rewrite E in Ek. now apply Ek.
Qed.

Lemma normalize_length nw tw up (ims ims' : list (Image Buffer)) cw :
  normalize nw tw up ims = Ok (ims', cw) -> List.length ims' = List.length ims.
Proof.
  unfold normalize. destruct nw.
  - destruct (resizeAll _ up ims) as [r | e] eqn:E; [ | discriminate ].
    intros H. injection H as <- _.
    apply resizeAll_Forall2 in E. symmetry. eapply Forall2_length, E.
  - intros H. now injection H as <- _.
Qed.

Lemma layout_lengths i p w l w' :
  layoutOf i p w = (Ok l, w') ->
  List.length (images l) = List.length (keys l)
  /\ List.length (fetched l) = List.length (keys l)
  /\ (1 <= List.length (images l))%nat.
Proof.
  intros H. apply layoutOf_Ok in H as (_ & _ & Hne & Hf & Hn & _).
  apply fetchImages_Ok in Hf as (Hlen & _). apply normalize_length in Hn.
  destruct (keys l); [ congruence | ]. cbn in *. lia.
Qed.

(** *** Placement *)

Lemma compositesFrom_nth a W s (ims : list (Image Buffer)) : forall off k im,
  nth_error ims k = Some im ->
  nth_error (compositesFrom a W s off ims) k
  = Some (mkOverlay (buffer im)
            (off + sumZ (map height (firstn k ims)) + Z.of_nat k * s)
            (leftOffset a W (width im))).
Proof.
  induction ims as [ | im0 rest IH ]; intros off [ | k ] im H; try discriminate.
  - injection H as ->. cbn. do 3 f_equal. lia.
  - cbn [nth_error] in H. cbn [compositesFrom nth_error].
    rewrite (IH _ _ _ H).
    destruct rest as [ | im1 rest' ]; [ destruct k; discriminate | ].
    do 2 f_equal.
    change (firstn (S k) (im0 :: im1 :: rest')) with (im0 :: firstn k (im1 :: rest')).
    cbn [map]. rewrite sumZ_cons, Nat2Z.inj_succ. lia.
Qed.

Lemma compositesFrom_length a W s (ims : list (Image Buffer)) : forall off,
  List.length (compositesFrom a W s off ims) = List.length ims.
Proof. induction ims; intros off; cbn; auto. Qed.

Lemma topOf_succ s (ims : list (Image Buffer)) k im :
  nth_error ims k = Some im ->
  topOf s ims (S k) = topOf s ims k + height im + s.
Proof.
  intros H. unfold topOf. rewrite (sum_firstn_succ _ _ _ H), Nat2Z.inj_succ. lia.
Qed.

Lemma topOf_mono s (ims : list (Image Buffer)) :
  0 <= s -> Forall (fun im => 0 <= height im) ims ->
  forall j i, (i <= j)%nat -> (j < List.length ims)%nat ->
  topOf s ims i <= topOf s ims j.
Proof.
  intros Hs Hh. induction j as [ | j IH ]; intros i Hij Hj.
  - replace i with 0%nat by lia. lia.
  - destruct (Nat.eq_dec i (S j)) as [-> | Hne]; [ lia | ].
    destruct (nth_error ims j) as [im | ] eqn:E;
      [ | apply nth_error_None in E; lia ].
    rewrite (topOf_succ _ _ _ _ E).
    assert (0 <= height im)
      by (rewrite Forall_forall in Hh; eapply Hh, nth_error_In, E).
    specialize (IH i). lia.
Qed.

End PipelineFacts.

(** The in-memory backend behaves as the laws ask. *)
#[export] Instance Fake_laws : BackendLaws Fake.backend.
Proof.
  split.
  - intros b w h H. cbn in H. unfold Fake.size in H. injection H as <- <-. lia.
  - intros b w h t e b' w' h' Hm Hr. cbn in Hm, Hr.
    unfold Fake.size in Hm. injection Hm as <- <-.
    unfold Fake.scale in Hr.
    destruct ((t <=? 0) || (Z.abs (fst b) =? 0) || (Z.abs (snd b) =? 0)); [ discriminate | ].
    destruct (e && (Z.abs (fst b) <? t)); injection Hr as <- <- <-; auto.
  - intros b t e b' w' h' Hr. cbn in Hr. unfold Fake.scale in Hr.
    destruct ((t <=? 0) || (Z.abs (fst b) =? 0) || (Z.abs (snd b) =? 0)) eqn:E;
      [ discriminate | ].
    apply orb_false_iff in E as [_ E]. apply Z.eqb_neq in E.
    destruct (e && (Z.abs (fst b) <? t)); injection Hr as <- <- <-; [ lia | ].
    apply Z.lt_le_trans with 1; [ lia | apply Z.le_max_l ].
Qed.

(** ** Canvas height and vertical placement *)

Section Placement.
Context `{B : Backend}.

Lemma Forall2_nth {X Y} (R : X -> Y -> Prop) (xs : list X) (ys : list Y) :
  Forall2 R xs ys ->
  forall k x, nth_error xs k = Some x -> exists y, nth_error ys k = Some y /\ R x y.
Proof.
  induction 1 as [ | x0 y0 xs ys H0 _ IH ]; intros [ | k ] x H; try discriminate.
  - injection H as <-. now exists y0.
  - exact (IH k x H).
Qed.

Lemma Forall2_Forall_r {X Y} (R : X -> Y -> Prop) (P : Y -> Prop) xs ys :
  Forall2 R xs ys -> (forall x y, R x y -> P y) -> Forall P ys.
Proof. intros H HP. induction H; constructor; eauto. Qed.

Lemma composites_nth i p w l w' k im :
  layoutOf i p w = (Ok l, w') ->
  nth_error (images l) k = Some im ->
  nth_error (composites l) k
  = Some (mkOverlay (buffer im) (topOf (spacing p) (images l) k)
            (leftOffset (alignment p) (canvasWidth l) (width im))).
Proof.
  intros H Hk. apply layoutOf_Ok in H as (_ & _ & _ & _ & _ & _ & _ & ->).
  unfold compositesOf. rewrite (compositesFrom_nth _ _ _ _ _ _ _ Hk).
  reflexivity.
Qed.

Lemma composites_length i p w l w' :
  layoutOf i p w = (Ok l, w') ->
  List.length (composites l) = List.length (images l).
Proof.
  intros H. apply layoutOf_Ok in H as (_ & _ & _ & _ & _ & _ & _ & ->).
  apply compositesFrom_length.
Qed.

Lemma composites_nth_inv i p w l w' k o :
  layoutOf i p w = (Ok l, w') ->
  nth_error (composites l) k = Some o ->
  exists im, nth_error (images l) k = Some im
             /\ o = mkOverlay (buffer im) (topOf (spacing p) (images l) k)
                      (leftOffset (alignment p) (canvasWidth l) (width im)).
Proof.
  intros H Ho.
  destruct (nth_error (images l) k) as [im | ] eqn:E.
  - exists im. split; [ reflexivity | ].
    rewrite (composites_nth _ _ _ _ _ _ _ H E) in Ho. congruence.
  - apply nth_error_None in E. rewrite <- (composites_length _ _ _ _ _ H) in E.
    apply nth_error_None in E. congruence.
Qed.

Lemma canvasHeight_eq i p w l w' :
  layoutOf i p w = (Ok l, w') ->
  canvasHeight l
  = sumZ (map height (images l))
    + Z.max 0 ((Z.of_nat (List.length (images l)) - 1) * spacing p).
Proof.
  intros H. pose proof (layout_lengths _ _ _ _ _ H) as (Hlen & _).
  apply layoutOf_Ok in H as (_ & _ & _ & _ & _ & -> & _).
  unfold canvasHeightOf. rewrite fold_heights, Hlen. lia.
Qed.

Lemma sum_all_but_last (ims : list (Image Buffer)) last :
  nth_error ims (List.length ims - 1) = Some last ->
  sumZ (map height ims)
  = sumZ (map height (firstn (List.length ims - 1) ims)) + height last.
Proof.
  intros H. rewrite <- (sum_firstn_succ _ _ _ H).
  assert (List.length ims <> 0)%nat
    by (intros E; destruct ims; [ discriminate H | discriminate E ]).
  replace (S (List.length ims - 1)) with (List.length ims) by lia.
  now rewrite firstn_all.
Qed.

Lemma layoutOf_withSpacing s i p w l w' :
  layoutOf i p w = (Ok l, w') ->
  exists l2, layoutOf i (withSpacing s p) w = (Ok l2, w')
             /\ images l2 = images l /\ canvasWidth l2 = canvasWidth l.
Proof.
  unfold layoutOf. cbn [withSpacing sourceBucket sourceKeysParam normalizeWidth
    targetWidthParam allowUpscale spacing alignment backgroundColor].
  destruct (negb (JS.truthy (sourceBucket p))); [ discriminate | ].
  destruct (List.length (parseKeys (sourceKeysParam p)) =? 0)%nat; [ discriminate | ].
  intros H.
  apply bind_Ok in H as (fs & w1 & Hfetch & H).
  apply bind_Ok in H as ([ims cw] & w2 & Hnorm & H).
  unfold bind. rewrite Hfetch, Hnorm.
  injection H as <- <-. eexists. split; [ reflexivity | split; reflexivity ].
Qed.

End Placement.

(** ** Normalisation under the laws of the imaging library *)

Section Normalisation.
Context `{B : Backend} {L : BackendLaws B}.

Lemma readable_height_pos (im : Image Buffer) : readable im -> 0 < height im.
Proof.
  intros (Hm & _ & Hh). apply metadata_nonneg in Hm. lia.
Qed.

Lemma resizeOne_spec t up (im im' : Image Buffer) :
  readable im -> resizeOne t up im = Ok im' -> normalisedFrom true up t im im'.
Proof.
  intros Hr H. pose proof (readable_height_pos _ Hr) as Hpos.
  destruct Hr as (Hm & _ & _). unfold resizeOne in H. red.
  destruct (width im =? t) eqn:Ew; cbn [negb] in H.
  - injection H as <-. apply Z.eqb_eq in Ew.
    split; [ exact Hpos | ].
    destruct (negb up && (width im <? t)); [ split; reflexivity | exact Ew ].
  - destruct (resize (buffer im) t (negb up)) as [[data [w h]] | e] eqn:Er; [ | discriminate ].
    injection H as <-.
    pose proof (resize_width _ _ _ _ _ _ _ _ Hm Er) as Hw.
    pose proof (resize_height_pos _ _ _ _ _ _ Er) as Hh.
    destruct (negb up && (width im <? t)).
    + destruct Hw as (-> & ->). split; [ exact Hpos | split; reflexivity ].
    + split; [ exact Hh | exact Hw ].
Qed.

Lemma normalize_spec nw tw up (ims ims' : list (Image Buffer)) cw :
  Forall readable ims ->
  normalize nw tw up ims = Ok (ims', cw) ->
  cw = targetWidthOf nw tw (Math_max (map width ims))
  /\ Forall2 (normalisedFrom nw up cw) ims ims'.
Proof.
  intros Hr. unfold normalize. destruct nw.
  - remember (targetWidthOf true tw (Math_max (map width ims))) as t eqn:Et.
    destruct (resizeAll t up ims) as [r | e] eqn:E; [ | discriminate ].
    intros H. injection H as <- <-. split; [ reflexivity | clear Et ].
    apply resizeAll_Forall2 in E.
    induction E as [ | im im' rest rest' H1 _ IH ]; constructor.
    + apply resizeOne_spec; [ now inversion Hr | exact H1 ].
    + apply IH. now inversion Hr.
  - intros H. injection H as <- <-. split; [ reflexivity | ].
    induction Hr as [ | im rest H1 _ IH ]; constructor; [ | exact IH ].
    split; [ now apply readable_height_pos | reflexivity ].
Qed.

Lemma layout_normalised i p w l w' :
  layoutOf i p w = (Ok l, w') ->
  canvasWidth l
  = targetWidthOf (normalizeWidth p) (targetWidthParam p) (Math_max (map width (fetched l)))
  /\ Forall2 (normalisedFrom (normalizeWidth p) (allowUpscale p) (canvasWidth l))
       (fetched l) (images l).
Proof.
  intros H. apply layoutOf_Ok in H as (_ & _ & _ & Hf & Hn & _).
  apply fetchImages_Ok in Hf as (_ & _ & Hr).
  exact (normalize_spec _ _ _ _ _ _ Hr Hn).
Qed.

Lemma layout_heights_pos i p w l w' :
  layoutOf i p w = (Ok l, w') -> Forall (fun im => 0 <= height im) (images l).
Proof.
  intros H. apply layout_normalised in H as (_ & H).
  apply (Forall2_Forall_r _ _ _ _ H). intros a b (Hpos & _). lia.
Qed.

Lemma fetched_widest i p w l w' :
  layoutOf i p w = (Ok l, w') ->
  In (Math_max (map width (fetched l))) (map width (fetched l))
  /\ Forall (fun im => width im <= Math_max (map width (fetched l))) (fetched l).
Proof.
  intros H. pose proof (layout_lengths _ _ _ _ _ H) as (Hi & Hf & Hn).
  assert (Hne : map width (fetched l) <> []).
  { destruct (fetched l); [ cbn in *; lia | discriminate ]. }
  destruct (Math_max_spec _ Hne) as [H1 H2]. split; [ exact H1 | ].
  rewrite Forall_forall in *. intros im Him. apply H2, in_map, Him.
Qed.

End Normalisation.

(** ** The claims on layout *)

Section LayoutClaims.
Context `{B : Backend}.

(** C1.  For a request whose layout is computed, with [n >= 1] images after
    normalisation and a spacing that is not negative, as the request schema
    has it, the canvas height is the sum of the image heights plus
    [spacing * (n - 1)]; the spacing term contributes 0 when [n = 1].  In
    general the term is [spacing * (n - 1)] clamped below at 0. *)
Theorem canvas_height_clamped_spacing i p w l w' :
  layoutOf i p w = (Ok l, w') ->
  let n := Z.of_nat (List.length (images l)) in
  let total := sumZ (map height (images l)) in
  1 <= n
  /\ canvasHeight l = total + Z.max 0 (spacing p * (n - 1))
  /\ (0 <= spacing p -> canvasHeight l = total + spacing p * (n - 1))
  /\ (n = 1 -> canvasHeight l = total).
Proof.
  intros H n total.
  pose proof (layout_lengths _ _ _ _ _ H) as (_ & _ & Hn).
  pose proof (canvasHeight_eq _ _ _ _ _ H) as Hc. fold n total in Hc.
  assert (1 <= n) by (unfold n; lia).
  repeat split.
  - assumption.
  - rewrite Hc. f_equal. f_equal. lia.
  - intros Hs. rewrite Hc. nia.
  - intros Hn1. rewrite Hc, Hn1. lia.
Qed.

(** C3.  The image of index [k], of width [w], is placed on the canvas of
    width [W] at horizontal offset 0 for left alignment, [floor ((W - w) / 2)]
    for centre and [W - w] for right. *)
Theorem left_offset_by_alignment i p w l w' k im :
  layoutOf i p w = (Ok l, w') ->
  nth_error (images l) k = Some im ->
  exists o, nth_error (composites l) k = Some o
    /\ input o = buffer im
    /\ match alignment p with
       | left => left_ o = 0
       | center => left_ o = (canvasWidth l - width im) / 2
                   /\ 2 * left_ o <= canvasWidth l - width im < 2 * left_ o + 2
       | right => left_ o = canvasWidth l - width im
       end.
Proof.
  intros H Hk. eexists. split; [ exact (composites_nth _ _ _ _ _ _ _ H Hk) | ].
  cbn [input left_]. split; [ reflexivity | ].
  unfold leftOffset. destruct (alignment p); try reflexivity.
  split; [ reflexivity | ].
  pose proof (Z.div_mod (canvasWidth l - width im) 2 ltac:(lia)).
  pose proof (Z.mod_pos_bound (canvasWidth l - width im) 2 ltac:(lia)). lia.
Qed.

End LayoutClaims.

Lemma canvas_height_clamped_spacing_witness :
  exists l w',
    layoutOf 0 (Fake.request "a.png,b.png" 10 left) Fake.shelf = (Ok l, w')
    /\ canvasHeight l
       = sumZ (map height (images l)) + 10 * (Z.of_nat (List.length (images l)) - 1).
Proof.
  destruct (layoutOf 0 (Fake.request "a.png,b.png" 10 left) Fake.shelf)
    as [[l | e] w'] eqn:E; [ | vm_compute in E; discriminate E ].
  exists l, w'. split; [ reflexivity | ].
  destruct (canvas_height_clamped_spacing _ _ _ _ _ E) as (_ & _ & H & _).
  apply H. cbn. lia.
Defined.

(** Outside the request schema, with a negative spacing, the clamp shows:
    two images of heights 50 and 80 with spacing -10 get a canvas of height
    130, not 130 + (-10) * 1. *)
Lemma canvas_height_negative_spacing :
  exists l w',
    layoutOf 0 (Fake.request "a.png,b.png" (-10) left) Fake.shelf = (Ok l, w')
    /\ canvasHeight l = 130
    /\ sumZ (map height (images l))
       + (-10) * (Z.of_nat (List.length (images l)) - 1) = 120.
Proof. do 2 eexists. split; [ run | split; run ]. Qed.

Lemma left_offset_by_alignment_witness :
  exists l w' im o,
    layoutOf 0 (Fake.request "a.png,c.png" 0 center) Fake.shelf = (Ok l, w')
    /\ nth_error (images l) 1 = Some im
    /\ nth_error (composites l) 1 = Some o
    /\ left_ o = (canvasWidth l - width im) / 2.
Proof.
  destruct (layoutOf 0 (Fake.request "a.png,c.png" 0 center) Fake.shelf)
    as [[l | e] w'] eqn:E; [ | vm_compute in E; discriminate E ].
  destruct (nth_error (images l) 1) as [im | ] eqn:Ei;
    [ | apply nth_error_None in Ei;
        rewrite (proj1 (layout_lengths _ _ _ _ _ E)),
          (proj1 (proj2 (layoutOf_Ok _ _ _ _ _ E))) in Ei;
        vm_compute in Ei; lia ].
  destruct (left_offset_by_alignment _ _ _ _ _ _ _ E Ei) as (o & Ho & _ & Hl).
  exists l, w', im, o. repeat split; try assumption. exact (proj1 Hl).
Defined.

Section VerticalClaims.
Context `{B : Backend} {L : BackendLaws B}.

(** C2.  For a request whose layout is computed, the image of index [k] is
    placed at the top offset that is the sum of the heights of the images
    before it plus one spacing for each of them (so the first is at 0 and
    each next one is at the previous top plus the previous height plus the
    spacing); with a spacing that is not negative, as the request schema has
    it, the top offsets are non-decreasing in input order; two images of
    heights 50 and 80 with spacing 10 are placed at 0 and 60 on a canvas of
    height 140. *)
Theorem top_offsets_accumulate i p w l w' :
  layoutOf i p w = (Ok l, w') ->
  List.length (composites l) = List.length (images l)
  /\ (forall k im, nth_error (images l) k = Some im ->
      exists o, nth_error (composites l) k = Some o
        /\ input o = buffer im
        /\ top o = sumZ (map height (firstn k (images l))) + Z.of_nat k * spacing p)
  /\ (forall k im o o', nth_error (images l) k = Some im ->
      nth_error (composites l) k = Some o ->
      nth_error (composites l) (S k) = Some o' ->
      top o' = top o + height im + spacing p)
  /\ (0 <= spacing p ->
      forall j k oj ok, (j <= k)%nat ->
        nth_error (composites l) j = Some oj ->
        nth_error (composites l) k = Some ok ->
        top oj <= top ok)
  /\ (spacing p = 10 -> map height (images l) = [50; 80] ->
      map top (composites l) = [0; 60] /\ canvasHeight l = 140).
Proof.
  intros H. split; [ exact (composites_length _ _ _ _ _ H) | ].
  split; [ | split; [ | split ] ].
  - intros k im Hk. eexists.
    split; [ exact (composites_nth _ _ _ _ _ _ _ H Hk) | split; reflexivity ].
  - intros k im o o' Hk Ho Ho'.
    rewrite (composites_nth _ _ _ _ _ _ _ H Hk) in Ho. injection Ho as <-.
    apply (composites_nth_inv _ _ _ _ _ _ _ H) in Ho' as (im' & _ & ->).
    cbn [top]. exact (topOf_succ _ _ _ _ Hk).
  - intros Hs j k oj ok Hjk Hj Hk.
    assert (Hlt : (k < List.length (images l))%nat).
    { rewrite <- (composites_length _ _ _ _ _ H). apply nth_error_Some. congruence. }
    apply (composites_nth_inv _ _ _ _ _ _ _ H) in Hj as (imj & _ & ->).
    apply (composites_nth_inv _ _ _ _ _ _ _ H) in Hk as (imk & _ & ->).
    cbn [top]. apply topOf_mono; auto.
    exact (layout_heights_pos _ _ _ _ _ H).
  - intros Hs Hh.
    pose proof (canvasHeight_eq _ _ _ _ _ H) as Hc.
    pose proof (layoutOf_Ok _ _ _ _ _ H) as (_ & _ & _ & _ & _ & _ & _ & Hcomp).
    rewrite Hcomp, Hs. rewrite Hs in Hc.
    destruct (images l) as [ | a [ | b [ | c rest ] ] ]; try discriminate Hh.
    cbn in Hh. injection Hh as Ha Hb.
    split.
    + cbn. rewrite Ha. reflexivity.
    + rewrite Hc. cbn. rewrite Ha, Hb. reflexivity.
Qed.

End VerticalClaims.

Lemma top_offsets_accumulate_witness :
  exists l w',
    layoutOf 0 (Fake.request "a.png,b.png" 10 left) Fake.shelf = (Ok l, w')
    /\ map top (composites l) = [0; 60] /\ canvasHeight l = 140.
Proof.
  destruct (layoutOf 0 (Fake.request "a.png,b.png" 10 left) Fake.shelf)
    as [[l | e] w'] eqn:E; [ | vm_compute in E; discriminate E ].
  exists l, w'. split; [ reflexivity | ].
  destruct (top_offsets_accumulate (L := Fake_laws) _ _ _ _ _ E) as (_ & _ & _ & _ & H).
  apply H; [ reflexivity | ].
  vm_compute in E. injection E as <- _. reflexivity.
Defined.

(** Outside the request schema, with a negative spacing, the offsets can
    decrease: with heights 50 and 80 and spacing -60 the second image is
    placed above the first. *)
Lemma top_offsets_decrease_negative_spacing :
  exists l w' o1 o2,
    layoutOf 0 (Fake.request "a.png,b.png" (-60) left) Fake.shelf = (Ok l, w')
    /\ nth_error (composites l) 0 = Some o1
    /\ nth_error (composites l) 1 = Some o2
    /\ top o1 = 0 /\ top o2 = -10 /\ ~ top o1 <= top o2.
Proof.
  do 4 eexists. split; [ run | ].
  split; [ run | ]. split; [ run | ].
  split; [ run | ]. split; [ run | ]. cbn. lia.
Qed.

Section SpacingClaims.
Context `{B : Backend} {L : BackendLaws B}.

Lemma layout_heights_strictly_pos i p w l w' im :
  layoutOf i p w = (Ok l, w') -> In im (images l) -> 0 < height im.
Proof.
  intros H. pose proof (layout_normalised _ _ _ _ _ H) as (_ & Hn).
  assert (Hf : Forall (fun im => 0 < height im) (images l))
    by (apply (Forall2_Forall_r _ _ _ _ Hn); intros a b (Hb & _); exact Hb).
  rewrite Forall_forall in Hf. apply Hf.
Qed.

(** C10 (amended).  The spacing is not validated: whatever its value, the
    layout is computed from the same images.  With [n >= 2] images and a
    negative spacing the canvas height is the sum of the heights alone; the
    last image is placed and its bottom edge is strictly less than the canvas
    height; each image after the first is placed with its top at the bottom
    edge of the one before it plus the negative spacing, so above that edge;
    and two consecutive images overlap exactly when the spacing is, in
    absolute value, less than their two heights together.  With
    [spacing >= 0] the bottom edge of the last image is the canvas height. *)
Theorem negative_spacing_overlaps i p w l w' :
  layoutOf i p w = (Ok l, w') ->
  let n := List.length (images l) in
  (forall s, exists l2, layoutOf i (withSpacing s p) w = (Ok l2, w')
                        /\ images l2 = images l /\ canvasWidth l2 = canvasWidth l)
  /\ (spacing p < 0 -> (2 <= n)%nat ->
      canvasHeight l = sumZ (map height (images l))
      /\ (exists last o, nth_error (images l) (n - 1) = Some last
            /\ nth_error (composites l) (n - 1) = Some o
            /\ top o + height last < canvasHeight l)
      /\ (forall k im im', nth_error (images l) k = Some im ->
            nth_error (images l) (S k) = Some im' ->
            exists o o', nth_error (composites l) k = Some o
              /\ nth_error (composites l) (S k) = Some o'
              /\ top o' = top o + height im + spacing p
              /\ top o' < top o + height im
              /\ (sharesRow (top o) (height im) (top o') (height im')
                  <-> - spacing p < height im + height im')))
  /\ (0 <= spacing p ->
      exists last o, nth_error (images l) (n - 1) = Some last
        /\ nth_error (composites l) (n - 1) = Some o
        /\ top o + height last = canvasHeight l).
Proof.
  intros H n.
  pose proof (layout_lengths _ _ _ _ _ H) as (_ & _ & Hn). fold n in Hn.
  pose proof (canvasHeight_eq _ _ _ _ _ H) as Hc. fold n in Hc.
  assert (Hlast : exists last o, nth_error (images l) (n - 1) = Some last
            /\ nth_error (composites l) (n - 1) = Some o
            /\ top o + height last
               = sumZ (map height (images l)) + (Z.of_nat n - 1) * spacing p).
  { destruct (nth_error (images l) (n - 1)) as [last | ] eqn:El;
      [ | apply nth_error_None in El; fold n in El; lia ].
    exists last. eexists. split; [ reflexivity | ].
    split; [ exact (composites_nth _ _ _ _ _ _ _ H El) | ].
    cbn [top]. unfold topOf. rewrite (sum_all_but_last _ _ El). fold n.
    rewrite Nat2Z.inj_sub by lia. cbn. lia. }
  split; [ intros s; exact (layoutOf_withSpacing s _ _ _ _ _ H) | ].
  split.
  - intros Hs H2. split; [ | split ].
    + rewrite Hc. nia.
    + destruct Hlast as (last & o & Hl & Ho & Hsum).
      exists last, o. split; [ exact Hl | ]. split; [ exact Ho | ].
      rewrite Hsum, Hc. nia.
    + intros k im im' Hk Hk'.
      do 2 eexists.
      split; [ exact (composites_nth _ _ _ _ _ _ _ H Hk) | ].
      split; [ exact (composites_nth _ _ _ _ _ _ _ H Hk') | ].
      cbn [top]. rewrite (topOf_succ _ _ _ _ Hk).
      pose proof (layout_heights_strictly_pos _ _ _ _ _ _ H (nth_error_In _ _ Hk)).
      pose proof (layout_heights_strictly_pos _ _ _ _ _ _ H (nth_error_In _ _ Hk')).
      split; [ reflexivity | ]. split; [ lia | ].
      unfold sharesRow. split.
      * intros (y & Hy1 & Hy2). lia.
      * intros Hclose.
        exists (Z.max (topOf (spacing p) (images l) k)
                  (topOf (spacing p) (images l) k + height im + spacing p)).
        lia.
  - intros Hs. destruct Hlast as (last & o & Hl & Ho & Hsum).
    exists last, o. split; [ exact Hl | ]. split; [ exact Ho | ].
    rewrite Hsum, Hc. nia.
Qed.

End SpacingClaims.

Lemma negative_spacing_overlaps_witness :
  exists l w' o o',
    layoutOf 0 (Fake.request "a.png,b.png" (-10) left) Fake.shelf = (Ok l, w')
    /\ nth_error (composites l) 0 = Some o
    /\ nth_error (composites l) 1 = Some o'
    /\ canvasHeight l = 130 /\ top o' = 40
    /\ sharesRow (top o) 50 (top o') 80.
Proof.
  destruct (layoutOf 0 (Fake.request "a.png,b.png" (-10) left) Fake.shelf)
    as [[l | e] w'] eqn:E; [ | vm_compute in E; discriminate E ].
  destruct (negative_spacing_overlaps (L := Fake_laws) _ _ _ _ _ E) as (_ & H & _).
  vm_compute in E. injection E as <- <-.
  destruct H as (Hc & _ & Hnext); [ reflexivity | cbn; lia | ].
  destruct (Hnext 0%nat (mkImage (100, 50) 100 50) (mkImage (100, 80) 100 80)
              eq_refl eq_refl)
    as (o & o' & Ho & Ho' & Htop & _ & Hshare).
  cbn [height spacing Fake.request] in Htop, Hshare.
  assert (Hzero : top o = 0) by (injection Ho as <-; reflexivity).
  eexists _, _, o, o'. split; [ reflexivity | ].
  split; [ exact Ho | ]. split; [ exact Ho' | ]. split; [ exact Hc | ].
  split; [ rewrite Htop, Hzero; reflexivity | ].
  apply Hshare. lia.
Defined.

(** C10 as stated fails when the negative spacing is large: with heights 50
    and 80 and spacing -200 the second image is placed at -150 and ends at
    -70, above the first image, so the two share no row. *)
Lemma negative_spacing_without_overlap :
  exists l w' o o',
    layoutOf 0 (Fake.request "a.png,b.png" (-200) left) Fake.shelf = (Ok l, w')
    /\ map height (images l) = [50; 80]
    /\ nth_error (composites l) 0 = Some o
    /\ nth_error (composites l) 1 = Some o'
    /\ top o = 0 /\ top o' = -150
    /\ ~ sharesRow (top o) 50 (top o') 80.
Proof.
  do 4 eexists. split; [ run | ].
  split; [ run | ]. split; [ run | ]. split; [ run | ].
  split; [ run | ]. split; [ run | ].
  cbn [top]. intros (y & Hy1 & Hy2). lia.
Qed.

(** Under a negative spacing two consecutive images share rows as long as
    the spacing does not exceed their heights. *)
Lemma consecutive_images_share_a_row `{B : Backend} {L : BackendLaws B}
  i p w l w' k im im' o o' :
  layoutOf i p w = (Ok l, w') ->
  nth_error (images l) k = Some im -> nth_error (images l) (S k) = Some im' ->
  nth_error (composites l) k = Some o -> nth_error (composites l) (S k) = Some o' ->
  spacing p < 0 -> - spacing p < height im ->
  top o <= top o' < top o + height im /\ top o' < top o' + height im'.
Proof.
  intros H Hk Hk' Ho Ho' Hs Hh.
  rewrite (composites_nth _ _ _ _ _ _ _ H Hk) in Ho. injection Ho as <-.
  rewrite (composites_nth _ _ _ _ _ _ _ H Hk') in Ho'. injection Ho' as <-.
  cbn [top]. rewrite (topOf_succ _ _ _ _ Hk).
  pose proof (layout_heights_pos _ _ _ _ _ H) as Hpos.
  pose proof (layout_normalised _ _ _ _ _ H) as (_ & Hn).
  assert (0 < height im').
  { clear - Hn Hk'. revert Hk'. generalize (S k).
    induction Hn as [ | a b rest rest' (Hb & _) _ IH ]; intros [ | j ] Hj;
      try discriminate.
    - injection Hj as <-. exact Hb.
    - exact (IH _ Hj). }
  lia.
Qed.

(** ** The claims on width normalisation *)

Section WidthClaims.
Context `{B : Backend} {L : BackendLaws B}.

(** C4 (amended).  For a request with [normalizeWidth = true] and
    [targetWidth = 0] the canvas width is the greatest width among the source
    images; when moreover [allowUpscale = true], every output image has the
    canvas width. *)
Theorem auto_width_is_widest i p w l w' :
  layoutOf i p w = (Ok l, w') ->
  normalizeWidth p = true -> targetWidthParam p = 0 ->
  canvasWidth l = Math_max (map width (fetched l))
  /\ In (canvasWidth l) (map width (fetched l))
  /\ Forall (fun src => width src <= canvasWidth l) (fetched l)
  /\ (allowUpscale p = true -> Forall (fun im => width im = canvasWidth l) (images l)).
Proof.
  intros H Hnw Htw.
  pose proof (layout_normalised _ _ _ _ _ H) as (Hcw & Hn).
  pose proof (fetched_widest _ _ _ _ _ H) as (Hin & Hall).
  rewrite Hnw, Htw in Hcw. cbn in Hcw. rewrite Hnw in Hn.
  split; [ exact Hcw | ].
  split; [ rewrite Hcw; exact Hin | ].
  split; [ rewrite Hcw; exact Hall | ].
  intros Hup. rewrite Hup in Hn.
  apply (Forall2_Forall_r _ _ _ _ Hn). intros a b (_ & Hb). exact Hb.
Qed.

(** C5.  For a request with [allowUpscale = false], no source image narrower
    than the canvas is enlarged: it is placed with the width and height it
    was fetched with; every placed image is at most as wide as its source and
    as the canvas; and its horizontal offset is the one its placed width [w']
    gives on the canvas of width [W]: 0 for left, [floor ((W - w') / 2)] for
    centre, [W - w'] for right, which is not negative. *)
Theorem no_upscale_keeps_narrow_images i p w l w' k src :
  layoutOf i p w = (Ok l, w') ->
  allowUpscale p = false ->
  nth_error (fetched l) k = Some src ->
  exists im o,
    nth_error (images l) k = Some im
    /\ nth_error (composites l) k = Some o
    /\ input o = buffer im
    /\ width im <= width src
    /\ width im <= canvasWidth l
    /\ (width src < canvasWidth l ->
        width im = width src /\ height im = height src)
    /\ match alignment p with
       | left => left_ o = 0
       | center => 2 * left_ o <= canvasWidth l - width im < 2 * left_ o + 2
       | right => left_ o = canvasWidth l - width im
       end
    /\ 0 <= left_ o.
Proof.
  intros H Hup Hk.
  pose proof (layout_normalised _ _ _ _ _ H) as (Hcw & Hn).
  pose proof (fetched_widest _ _ _ _ _ H) as (_ & Hall).
  destruct (Forall2_nth _ _ _ Hn _ _ Hk) as (im & Him & _ & Hrel).
  rewrite Forall_forall in Hall. specialize (Hall _ (nth_error_In _ _ Hk)).
  exists im. eexists. split; [ exact Him | ].
  split; [ exact (composites_nth _ _ _ _ _ _ _ H Him) | ].
  cbn [input left_]. split; [ reflexivity | ].
  assert (Hw : width im <= width src /\ width im <= canvasWidth l
               /\ (width src < canvasWidth l ->
                   width im = width src /\ height im = height src)).
  { rewrite Hup in Hrel. cbn [negb andb] in Hrel.
    destruct (normalizeWidth p).
    - destruct (width src <? canvasWidth l) eqn:E.
      + destruct Hrel as [Hw Hh]. apply Z.ltb_lt in E. repeat split; auto; lia.
      + apply Z.ltb_ge in E. repeat split; try lia.
    - subst im. cbn in Hcw. rewrite Hcw. repeat split; auto; lia. }
  destruct Hw as (H1 & H2 & H3).
  split; [ exact H1 | ]. split; [ exact H2 | ]. split; [ exact H3 | ].
  unfold leftOffset. destruct (alignment p).
  - split; [ reflexivity | lia ].
  - pose proof (Z.div_mod (canvasWidth l - width im) 2 ltac:(lia)).
    pose proof (Z.mod_pos_bound (canvasWidth l - width im) 2 ltac:(lia)).
    split; [ lia | apply Z.div_pos; lia ].
  - split; [ reflexivity | lia ].
Qed.

End WidthClaims.

Lemma auto_width_is_widest_witness :
  exists l w',
    layoutOf 0 (Fake.request "a.png,c.png" 0 left) Fake.shelf = (Ok l, w')
    /\ In (canvasWidth l) (map width (fetched l))
    /\ Forall (fun im => width im = canvasWidth l) (images l).
Proof.
  destruct (layoutOf 0 (Fake.request "a.png,c.png" 0 left) Fake.shelf)
    as [[l | e] w'] eqn:E; [ | vm_compute in E; discriminate E ].
  exists l, w'. split; [ reflexivity | ].
  destruct (auto_width_is_widest (L := Fake_laws) _ _ _ _ _ E eq_refl eq_refl)
    as (_ & H1 & _ & H2).
  split; [ exact H1 | exact (H2 eq_refl) ].
Defined.

(** C4 as stated fails when [allowUpscale] is off: of two source images 100
    and 60 wide, the second keeps its width of 60 on a canvas 100 wide. *)
Lemma auto_width_without_upscale :
  exists l w' im,
    layoutOf 0 (Fake.requestNoUpscale "a.png,c.png" left) Fake.shelf = (Ok l, w')
    /\ normalizeWidth (Fake.requestNoUpscale "a.png,c.png" left) = true
    /\ targetWidthParam (Fake.requestNoUpscale "a.png,c.png" left) = 0
    /\ canvasWidth l = 100
    /\ nth_error (images l) 1 = Some im
    /\ width im = 60.
Proof. do 3 eexists. repeat split; run. Qed.

Lemma no_upscale_keeps_narrow_images_witness :
  exists l w' src im o,
    layoutOf 0 (Fake.requestNoUpscale "a.png,c.png" right) Fake.shelf = (Ok l, w')
    /\ nth_error (fetched l) 1 = Some src
    /\ nth_error (images l) 1 = Some im
    /\ nth_error (composites l) 1 = Some o
    /\ canvasWidth l = 100 /\ width im = 60 /\ left_ o = 40.
Proof.
  destruct (layoutOf 0 (Fake.requestNoUpscale "a.png,c.png" right) Fake.shelf)
    as [[l | e] w'] eqn:E; [ | vm_compute in E; discriminate E ].
  pose proof (fun src => no_upscale_keeps_narrow_images (L := Fake_laws)
                           _ _ _ _ _ 1%nat src E eq_refl) as H.
  vm_compute in E. injection E as <- <-.
  destruct (H (mkImage (60, 30) 60 30) eq_refl)
    as (im & o & Him & Ho & _ & _ & _ & Hsame & Hleft & _).
  cbn [canvasWidth width] in Hsame, Hleft.
  destruct (Hsame ltac:(lia)) as [Hw _].
  exists (mkLayout ["a.png"; "c.png"]
            [mkImage (100, 50) 100 50; mkImage (60, 30) 60 30]
            [mkImage (100, 50) 100 50; mkImage (60, 30) 60 30]
            100 80 transparent
            [mkOverlay (100, 50) 0 0; mkOverlay (60, 30) 50 40]).
  eexists _, _, im, o. split; [ reflexivity | ].
  split; [ reflexivity | ]. split; [ exact Him | ]. split; [ exact Ho | ].
  split; [ reflexivity | ]. split; [ exact Hw | ].
  rewrite Hleft, Hw. reflexivity.
Defined.

(** ** Background colour *)

Section Background.
Import JS Text JSFacts.

Lemma background_transparent :
  parseBackgroundColor None = transparent
  /\ parseBackgroundColor (Some EmptyString) = transparent
  /\ (forall s, toLowerCase s = "transparent" -> parseBackgroundColor (Some s) = transparent)
  /\ Color.alpha transparent = Some (0 # 1)%Q.
Proof.
  repeat split. intros s Hs. unfold parseBackgroundColor.
  rewrite Hs. cbn. now rewrite orb_true_r.
Qed.

Lemma trimEnd_snoc c s d :
  hexDigit c = Some d -> trimEnd s = s -> trimEnd (String c s) = String c s.
Proof.
  intros Hc Hs. cbn [trimEnd]. rewrite Hs, (hexDigit_not_space _ _ Hc). reflexivity.
Qed.

(** [#RRGGBB] with six hexadecimal digits is the opaque colour they spell. *)
Lemma background_hex6 c1 c2 c3 c4 c5 c6 d1 d2 d3 d4 d5 d6 :
  hexDigit c1 = Some d1 -> hexDigit c2 = Some d2 -> hexDigit c3 = Some d3 ->
  hexDigit c4 = Some d4 -> hexDigit c5 = Some d5 -> hexDigit c6 = Some d6 ->
  parseBackgroundColor
    (Some (String "#" (String c1 (String c2 (String c3 (String c4 (String c5
      (String c6 EmptyString))))))))
  = Color.mk (Some (16 * d1 + d2)) (Some (16 * d3 + d4)) (Some (16 * d5 + d6))
      (Some (1 # 1)%Q).
Proof.
  intros H1 H2 H3 H4 H5 H6. unfold parseBackgroundColor.
  cbn [isEmpty orb toLowerCase].
  change (lowerChar "#") with "#"%char.
  cbn [String.eqb Ascii.eqb Bool.eqb]. cbn [replaceFirst Ascii.eqb Bool.eqb].
  unfold trim. cbn [trimStart]. rewrite (hexDigit_not_space _ _ H1).
  rewrite (trimEnd_snoc _ _ _ H1 (trimEnd_snoc _ _ _ H2 (trimEnd_snoc _ _ _ H3
    (trimEnd_snoc _ _ _ H4 (trimEnd_snoc _ _ _ H5 (trimEnd_snoc _ _ _ H6 eq_refl)))))).
  cbn [String.length Nat.eqb orb slice substring Nat.sub].
  now rewrite (parseInt16_two _ _ _ _ H1 H2), (parseInt16_two _ _ _ _ H3 H4),
    (parseInt16_two _ _ _ _ H5 H6).
Qed.

(** [#RRGGBBAA] adds the alpha byte, scaled to the interval from 0 to 1. *)
Lemma background_hex8 c1 c2 c3 c4 c5 c6 c7 c8 d1 d2 d3 d4 d5 d6 d7 d8 :
  hexDigit c1 = Some d1 -> hexDigit c2 = Some d2 -> hexDigit c3 = Some d3 ->
  hexDigit c4 = Some d4 -> hexDigit c5 = Some d5 -> hexDigit c6 = Some d6 ->
  hexDigit c7 = Some d7 -> hexDigit c8 = Some d8 ->
  parseBackgroundColor
    (Some (String "#" (String c1 (String c2 (String c3 (String c4 (String c5
      (String c6 (String c7 (String c8 EmptyString))))))))))
  = Color.mk (Some (16 * d1 + d2)) (Some (16 * d3 + d4)) (Some (16 * d5 + d6))
      (Some ((16 * d7 + d8) # 255)%Q)
  /\ (0 <= (16 * d7 + d8) # 255 <= 1)%Q.
Proof.
  intros H1 H2 H3 H4 H5 H6 H7 H8. split.
  - unfold parseBackgroundColor.
    cbn [isEmpty orb toLowerCase].
    change (lowerChar "#") with "#"%char.
    cbn [String.eqb Ascii.eqb Bool.eqb]. cbn [replaceFirst Ascii.eqb Bool.eqb].
    unfold trim. cbn [trimStart]. rewrite (hexDigit_not_space _ _ H1).
    rewrite (trimEnd_snoc _ _ _ H1 (trimEnd_snoc _ _ _ H2 (trimEnd_snoc _ _ _ H3
      (trimEnd_snoc _ _ _ H4 (trimEnd_snoc _ _ _ H5 (trimEnd_snoc _ _ _ H6
      (trimEnd_snoc _ _ _ H7 (trimEnd_snoc _ _ _ H8 eq_refl)))))))).
    cbn [String.length Nat.eqb orb slice substring Nat.sub].
    now rewrite (parseInt16_two _ _ _ _ H1 H2), (parseInt16_two _ _ _ _ H3 H4),
      (parseInt16_two _ _ _ _ H5 H6), (parseInt16_two _ _ _ _ H7 H8).
  - apply hexDigit_range in H7, H8. split; unfold Qle; cbn [Qnum Qden]; lia.
Qed.

(** Whatever is neither empty nor [transparent] and, with its first [#]
    removed and trimmed, is not 6 or 8 characters long is opaque white. *)
Lemma background_fallback s :
  isEmpty s = false -> toLowerCase s <> "transparent" ->
  String.length (trim (replaceFirst "#" s)) <> 6%nat ->
  String.length (trim (replaceFirst "#" s)) <> 8%nat ->
  parseBackgroundColor (Some s) = opaqueWhite.
Proof.
  intros He Ht H6 H8. unfold parseBackgroundColor. rewrite He.
  apply String.eqb_neq in Ht. rewrite Ht. cbn [orb].
  apply Nat.eqb_neq in H6, H8. now rewrite H6, H8.
Qed.

End Background.

(** C6.  Six characters after [#] that are not hexadecimal digits are not
    sent to the opaque white fallback: every colour channel is [NaN] (here
    [None]) and the alpha is 1, although the input is malformed. *)
Theorem background_nonhex_digits :
  parseBackgroundColor (Some "#GGGGGG") = Color.mk None None None (Some (1 # 1)%Q)
  /\ parseBackgroundColor (Some "#GGGGGG") <> opaqueWhite
  /\ parseBackgroundColor (Some "#12345") = opaqueWhite.
Proof. repeat split. vm_compute. discriminate. Qed.

(** ** Key parsing *)

Section Keys.
Import JS Text JSFacts.

Lemma sepFree_app a b : sepFree a = true -> sepFree b = true -> sepFree (a ++ b) = true.
Proof.
  induction a as [ | c r IH ]; intros Ha Hb; [ exact Hb | ].
  cbn [append sepFree] in *. apply andb_true_iff in Ha as [Hc Hr].
  now rewrite Hc, IH.
Qed.








End Keys.



(** ** Publishing *)

Section Publishing.
Context `{B : Backend}.

Lemma wantsUpload_true p :
  wantsUpload p = true
  <-> destinationBucket p <> EmptyString /\ destinationKey p <> EmptyString.
Proof.
  unfold wantsUpload. rewrite andb_true_iff, !truthy_true. reflexivity.
Qed.

Lemma wantsUpload_false p :
  wantsUpload p = false
  <-> destinationBucket p = EmptyString \/ destinationKey p = EmptyString.
Proof.
  unfold wantsUpload. rewrite andb_false_iff.
  destruct (destinationBucket p), (destinationKey p); cbn; split;
    intros [H | H]; try discriminate; auto.
Qed.

(** [processItem], stage by stage. *)
Lemma processItem_run i p w :
  processItem i p w =
  match layoutOf i p w with
  | (Throw e, w1) => (Throw e, w1)
  | (Ok l, w1) =>
      match fst (encode p l w1) with
      | Throw e => (Throw e, w1)
      | Ok out =>
          if wantsUpload p then
            let '(s', r) :=
              putObject (store w1) (destinationBucket p) (destinationKey p) out
                (bufferLength out) (mimeTypeOf (format p)) in
            (match r with
             | Ok etag => Ok (newItem p l out (Some etag))
             | Throw e => Throw e
             end,
             mkWorld s' (trace w1 ++ [EvPut (destinationBucket p) (destinationKey p)
                                        out (mimeTypeOf (format p))]))
          else (Ok (newItem p l out None), w1)
      end
  end.
Proof.
  unfold processItem, bind. destruct (layoutOf i p w) as [[l | e] w1]; [ | reflexivity ].
  unfold encode, lift. cbn [fst].
  destruct (render _ _ _ _ _) as [out | e]; [ | reflexivity ].
  unfold publish. destruct (wantsUpload p); [ | reflexivity ].
  unfold bind, putObjectM.
  destruct (putObject _ _ _ _ _ _) as [s' [etag | e]]; reflexivity.
Qed.

(** A result item reports the keys and the canvas of the layout. *)
Lemma processItem_reports_layout i p w json bin w' :
  processItem i p w = (Ok (Item json bin), w') ->
  exists l w1, layoutOf i p w = (Ok l, w1)
    /\ json_sourceKeys json = keys l
    /\ json_canvas json = (canvasWidth l, canvasHeight l).
Proof.
  rewrite processItem_run.
  destruct (layoutOf i p w) as [[l | e] w1]; [ | discriminate ].
  destruct (fst (encode p l w1)) as [out | e]; [ | discriminate ].
  intros H. exists l, w1. split; [ reflexivity | ].
  destruct (wantsUpload p).
  - destruct (putObject _ _ _ _ _ _) as [s' [etag | e]]; [ | discriminate ].
    injection H as <- _ _. split; reflexivity.
  - injection H as <- _ _. split; reflexivity.
Qed.

Lemma puts_snoc_put (w1 : World Buffer Store) s' bucket key out mime :
  puts (mkWorld s' (trace w1 ++ [EvPut bucket key out mime]))
  = puts w1 ++ [EvPut bucket key out mime].
Proof. unfold puts. cbn [trace]. now rewrite filter_app. Qed.

(** C8.  An upload is made exactly when both the destination bucket and the
    destination key are non-empty, for a request that gets as far as the
    encoded canvas: then one [putObject] call with that bucket, key, buffer
    and content type is added and a successful result carries the [uploaded]
    field.  When either is empty no upload is made, the store is unchanged
    and the result has no [uploaded] field; a request that fails before the
    canvas is encoded makes no upload either. *)
Theorem upload_iff_destination i p w r w' :
  processItem i p w = (r, w') ->
  (wantsUpload p = true
   <-> destinationBucket p <> EmptyString /\ destinationKey p <> EmptyString)
  /\ (destinationBucket p = EmptyString \/ destinationKey p = EmptyString ->
      store w' = store w /\ puts w' = puts w
      /\ forall json bin, r = Ok (Item json bin) -> json_uploaded json = None)
  /\ (destinationBucket p <> EmptyString -> destinationKey p <> EmptyString ->
      forall l w1 out, encoded i p w l w1 out ->
        puts w' = puts w ++ [EvPut (destinationBucket p) (destinationKey p) out
                               (mimeTypeOf (format p))]
        /\ forall json bin, r = Ok (Item json bin) ->
             exists etag, json_uploaded json
                          = Some (mkUploaded (destinationBucket p) (destinationKey p) etag))
  /\ ((forall l w1 out, ~ encoded i p w l w1 out) ->
      store w' = store w /\ puts w' = puts w /\ exists e, r = Throw e)
  /\ (puts w' <> puts w ->
      destinationBucket p <> EmptyString /\ destinationKey p <> EmptyString).
Proof.
  intros H. rewrite processItem_run in H.
  assert (Hquiet : destinationBucket p = EmptyString \/ destinationKey p = EmptyString ->
      store w' = store w /\ puts w' = puts w
      /\ forall json bin, r = Ok (Item json bin) -> json_uploaded json = None).
  { intros Hd. apply wantsUpload_false in Hd.
    destruct (layoutOf i p w) as [[l | e] w1] eqn:El;
      pose proof (quiet_layoutOf _ _ _ _ _ El) as (Hs & Hp).
    - destruct (fst (encode p l w1)) as [out | e].
      + rewrite Hd in H. injection H as <- <-. repeat split; auto.
        intros json bin Hj. injection Hj as <- _. unfold newItem.
        cbn [json_uploaded]. now rewrite Hd.
      + injection H as <- <-. repeat split; auto. discriminate.
    - injection H as <- <-. repeat split; auto. discriminate. }
  split; [ apply wantsUpload_true | ].
  split; [ exact Hquiet | ].
  split; [ | split ].
  - intros Hb Hk l w1 out (El & Ee).
    assert (Hw : wantsUpload p = true) by (apply wantsUpload_true; auto).
    pose proof (quiet_layoutOf _ _ _ _ _ El) as (_ & Hp).
    rewrite El, Ee, Hw in H. cbn [fst] in H.
    destruct (putObject _ _ _ _ _ _) as [s' [etag | e]]; injection H as <- <-;
      rewrite puts_snoc_put, Hp; (split; [ reflexivity | ]).
    + intros json bin Hj. injection Hj as <- _. unfold newItem.
      cbn [json_uploaded]. rewrite Hw. eauto.
    + discriminate.
  - intros Hnot.
    destruct (layoutOf i p w) as [[l | e] w1] eqn:El;
      pose proof (quiet_layoutOf _ _ _ _ _ El) as (Hs & Hp).
    + destruct (encode p l w1) as [[out | e] w2] eqn:Ee; cbn [fst] in H.
      * exfalso. apply (Hnot l w1 out). split; [ exact El | ].
        unfold encode, lift in *. injection Ee as Er _. now rewrite Er.
      * injection H as <- <-. eauto.
    + injection H as <- <-. eauto.
  - intros Hp. destruct (wantsUpload p) eqn:Hw; [ now apply wantsUpload_true | ].
    apply wantsUpload_false in Hw. destruct (Hquiet Hw) as (_ & Hq & _). congruence.
Qed.

End Publishing.

Lemma upload_iff_destination_witness :
  exists r w' l w1 out,
    processItem 0 (Fake.requestTo "out" "stack.png") Fake.shelf = (r, w')
    /\ encoded 0 (Fake.requestTo "out" "stack.png") Fake.shelf l w1 out
    /\ puts w' = [EvPut "out" "stack.png" out "image/png"].
Proof.
  destruct (processItem 0 (Fake.requestTo "out" "stack.png") Fake.shelf)
    as [r w'] eqn:E.
  destruct (upload_iff_destination _ _ _ _ _ E) as (_ & _ & H & _).
  assert (He : encoded 0 (Fake.requestTo "out" "stack.png") Fake.shelf
                 (mkLayout ["a.png"; "b.png"]
                    [mkImage (100, 50) 100 50; mkImage (100, 80) 100 80]
                    [mkImage (100, 50) 100 50; mkImage (100, 80) 100 80]
                    100 140 transparent
                    [mkOverlay (100, 50) 0 0; mkOverlay (100, 80) 60 0])
                 (mkWorld (store Fake.shelf) [EvGet "in" "a.png"; EvGet "in" "b.png"])
                 (100, 140))
    by (split; run).
  exists r, w'. do 3 eexists. split; [ reflexivity | ]. split; [ exact He | ].
  exact (proj1 (H ltac:(discriminate) ltac:(discriminate) _ _ _ He)).
Defined.

(** ** The batch *)

Section Batch.
Context `{B : Backend}.

Lemma rethrow_spec error k :
  context (rethrow error k) = Some (Some k)
  /\ (context error <> None -> message (rethrow error k) = message error)
  /\ (context error = None ->
      message (rethrow error k) = wrappedMessage (message error)).
Proof.
  unfold rethrow. destruct (context error); repeat split; congruence.
Qed.

Lemma executeFrom_continue items : forall i acc w,
  executeFrom true i items acc w
  = (Ok (acc ++ outcomesFrom i items w), worldAfter i items w).
Proof.
  induction items as [ | p rest IH ]; intros i acc w; cbn [executeFrom outcomesFrom worldAfter].
  - unfold ret. now rewrite app_nil_r.
  - unfold outcome. destruct (processItem i p w) as [[item | e] w1]; cbn [fst snd];
      rewrite IH, <- app_assoc; reflexivity.
Qed.

Lemma outcomesFrom_length items : forall i w,
  List.length (outcomesFrom i items w) = List.length items.
Proof. induction items; intros i w; cbn; auto. Qed.

Lemma outcomesFrom_nth items : forall i w k p,
  nth_error items k = Some p ->
  nth_error (outcomesFrom i items w) k
  = Some (outcome (i + k) p (worldAfter i (firstn k items) w)).
Proof.
  induction items as [ | q rest IH ]; intros i w [ | k ] p H; try discriminate.
  - injection H as ->. cbn. now rewrite Nat.add_0_r.
  - cbn [nth_error] in H. cbn [outcomesFrom nth_error firstn worldAfter].
    rewrite (IH _ _ _ _ H). now rewrite Nat.add_succ_r.
Qed.

Lemma worldAfter_step items : forall i w k p,
  nth_error items k = Some p ->
  worldAfter i (firstn (S k) items) w
  = snd (processItem (i + k) p (worldAfter i (firstn k items) w)).
Proof.
  induction items as [ | q rest IH ]; intros i w [ | k ] p H; try discriminate.
  - injection H as ->. cbn. now rewrite Nat.add_0_r.
  - cbn [nth_error] in H. rewrite Nat.add_succ_r.
    change (firstn (S (S k)) (q :: rest)) with (q :: firstn (S k) rest).
    cbn [firstn worldAfter]. exact (IH _ _ _ _ H).
Qed.

Lemma succeedUpTo_tail i q rest w k :
  succeedUpTo i (q :: rest) w (S k) ->
  succeedUpTo (S i) rest (snd (processItem i q w)) k.
Proof.
  intros H j q' Hj Hq. specialize (H (S j) q' ltac:(lia) Hq).
  rewrite Nat.add_succ_r in H. exact H.
Qed.

Lemma executeFrom_abort items : forall i acc w k p e wk,
  nth_error items k = Some p ->
  succeedUpTo i items w k ->
  processItem (i + k) p (worldAfter i (firstn k items) w) = (Throw e, wk) ->
  executeFrom false i items acc w = (Throw (rethrow e (i + k)), wk).
Proof.
  induction items as [ | q rest IH ]; intros i acc w [ | k ] p e wk Hk Hok Hfail;
    try discriminate.
  - injection Hk as ->. rewrite Nat.add_0_r in *. cbn in Hfail.
    cbn [executeFrom]. now rewrite Hfail.
  - cbn [nth_error] in Hk. cbn [executeFrom].
    destruct (Hok 0%nat q ltac:(lia) eq_refl) as (item & Hitem).
    rewrite Nat.add_0_r in Hitem. cbn in Hitem.
    pose proof (succeedUpTo_tail _ _ _ _ _ Hok) as Hok'.
    cbn [firstn worldAfter] in Hfail. rewrite Nat.add_succ_r in Hfail.
    destruct (processItem i q w) as [[item' | e'] w1]; [ | discriminate Hitem ].
    cbn [snd] in *.
    rewrite (IH (S i) _ _ _ _ _ _ Hk Hok' Hfail). now rewrite Nat.add_succ_r.
Qed.

Lemma executeFrom_all_succeed items : forall i acc w,
  succeedUpTo i items w (List.length items) ->
  executeFrom false i items acc w = executeFrom true i items acc w.
Proof.
  induction items as [ | q rest IH ]; intros i acc w Hok; [ reflexivity | ].
  cbn [executeFrom].
  destruct (Hok 0%nat q ltac:(cbn; lia) eq_refl) as (item & Hitem).
  rewrite Nat.add_0_r in Hitem. cbn in Hitem.
  pose proof (succeedUpTo_tail _ _ _ _ _ Hok) as Hok'.
  destruct (processItem i q w) as [[item' | e'] w1]; [ | discriminate Hitem ].
  now apply IH.
Qed.

(** C9.  The items are processed one after the other in input order, each
    from the world the previous one left.  With continue-on-failure on, the
    batch returns one output per item, at the item's position: its result,
    or an error placeholder with the error message paired with that
    position; a failure stops nothing.  With it off, the first failing item
    ends the batch with an error that carries the item's position and the
    message of the failure (its own when the error has a context, the one
    the library gives the wrapping error otherwise), and the world is the
    one that item left: the items after it are not processed.  When no item
    fails the two policies agree. *)
Theorem batch_in_order items w :
  (execute true items w
   = (Ok (outcomesFrom 0 items w), worldAfter 0 items w)
   /\ List.length (outcomesFrom 0 items w) = List.length items
   /\ forall k p, nth_error items k = Some p ->
        nth_error (outcomesFrom 0 items w) k
        = Some (outcome k p (worldAfter 0 (firstn k items) w))
        /\ (forall item,
            fst (processItem k p (worldAfter 0 (firstn k items) w)) = Ok item ->
            outcome k p (worldAfter 0 (firstn k items) w) = item)
        /\ (forall e, fst (processItem k p (worldAfter 0 (firstn k items) w)) = Throw e ->
            outcome k p (worldAfter 0 (firstn k items) w) = ErrorItem (message e) k))
  /\ (forall k p e wk,
        nth_error items k = Some p ->
        succeedUpTo 0 items w k ->
        processItem k p (worldAfter 0 (firstn k items) w) = (Throw e, wk) ->
        exists e', execute false items w = (Throw e', wk)
                   /\ context e' = Some (Some k)
                   /\ (context e <> None -> message e' = message e)
                   /\ (context e = None ->
                       message e' = wrappedMessage (message e))
                   /\ wk = worldAfter 0 (firstn (S k) items) w)
  /\ (succeedUpTo 0 items w (List.length items) ->
      execute false items w = execute true items w).
Proof.
  split; [ | split ].
  - split; [ apply (executeFrom_continue items 0 []) | ].
    split; [ apply outcomesFrom_length | ].
    intros k p Hk. split; [ exact (outcomesFrom_nth _ 0 _ _ _ Hk) | ].
    split; intros x Hx; unfold outcome; now rewrite Hx.
  - intros k p e wk Hk Hok Hfail. exists (rethrow e k).
    split; [ exact (executeFrom_abort items 0 [] w k p e wk Hk Hok Hfail) | ].
    destruct (rethrow_spec e k) as (Hc & Hown & Hwrap).
    split; [ exact Hc | ]. split; [ exact Hown | ]. split; [ exact Hwrap | ].
    rewrite (worldAfter_step _ 0 _ _ _ Hk). cbn [Nat.add]. now rewrite Hfail.
  - intros Hok. exact (executeFrom_all_succeed items 0 [] w Hok).
Qed.

End Batch.

Lemma batch_in_order_witness :
  nth_error (outcomesFrom 0 Fake.batch Fake.shelf) 1
  = Some (ErrorItem "The specified key does not exist." 1)
  /\ exists e' wk,
       execute false Fake.batch Fake.shelf = (Throw e', wk)
       /\ message e' = "The specified key does not exist."
       /\ context e' = Some (Some 1%nat)
       /\ trace wk = [EvGet "in" "a.png"; EvGet "in" "zzz.png"].
Proof.
  destruct (batch_in_order Fake.batch Fake.shelf) as ((_ & _ & Hnth) & Habort & _).
  split.
  - destruct (Hnth 1%nat (Fake.request "zzz.png" 0 left) eq_refl) as (Hout & _ & Herr).
    rewrite Hout. apply f_equal.
    exact (Herr (mkError "The specified key does not exist." None) ltac:(run)).
  - destruct (Habort 1%nat (Fake.request "zzz.png" 0 left)
                (mkError "The specified key does not exist." None)
                (mkWorld (store Fake.shelf) [EvGet "in" "a.png"; EvGet "in" "zzz.png"])
                eq_refl)
      as (e' & He & Hc & _ & Hwrap & _).
    + intros j q Hj Hq.
      assert (j = 0%nat) as -> by lia. cbn in Hq. injection Hq as <-.
      eexists. run.
    + run.
    + exists e'. eexists.
      repeat split; [ exact He | exact (Hwrap eq_refl) | exact Hc | reflexivity ].
Defined.

(** * Further properties of the node *)

(** ** Reading a stream *)

Section StreamFacts.
Import Stream.

Lemma fold_on_data cs : forall st,
  fold_left on (map data cs) st
  = mkPending (chunks st ++ map asBuffer cs) (settled st).
Proof.
  induction cs as [ | c rest IH ]; intros st; cbn [map fold_left].
  - rewrite app_nil_r. now destruct st.
  - rewrite IH. cbn [on chunks settled]. now rewrite <- app_assoc.
Qed.

Lemma settled_stable evs : forall st r,
  settled st = Some r -> settled (fold_left on evs st) = Some r.
Proof.
  induction evs as [ | ev rest IH ]; intros st r H; [ exact H | ].
  cbn [fold_left]. apply IH.
  destruct ev; cbn [on settled]; unfold settle; rewrite ?H; cbn [settled];
    rewrite ?H; reflexivity.
Qed.

(** A stream that emits chunks and then [end] resolves with the chunks
    concatenated in the order of arrival, whatever it emits afterwards; as
    long as it has emitted chunks only, the promise is pending. *)
Theorem stream_resolves_with_chunks_in_order cs later :
  streamToBuffer (map data cs ++ end_ :: later)
  = Some (Ok (List.concat (map asBuffer cs)))
  /\ streamToBuffer (map data cs) = None.
Proof.
  unfold streamToBuffer. split.
  - rewrite fold_left_app, fold_on_data. cbn [fold_left].
    apply settled_stable. reflexivity.
  - now rewrite fold_on_data.
Qed.

(** A stream that emits [error] before any [end] rejects with that error,
    whatever chunks came before and whatever it emits afterwards. *)
Theorem stream_rejects_on_error cs e later :
  streamToBuffer (map data cs ++ error e :: later) = Some (Throw e).
Proof.
  unfold streamToBuffer. rewrite fold_left_app, fold_on_data. cbn [fold_left].
  apply settled_stable. reflexivity.
Qed.

(** Once the promise is settled, no later event changes its outcome. *)
Theorem stream_settles_once evs more r :
  streamToBuffer evs = Some r -> streamToBuffer (evs ++ more) = Some r.
Proof.
  unfold streamToBuffer. intros H. rewrite fold_left_app.
  now apply settled_stable.
Qed.

End StreamFacts.

Lemma stream_settles_once_witness :
  Stream.streamToBuffer
    ([Stream.data (Stream.IsBuffer [Byte.x01]); Stream.end_]
     ++ [Stream.data (Stream.IsBuffer [Byte.x02]);
         Stream.error (mkError "late" None)])
  = Some (Ok [Byte.x01]).
Proof. apply stream_settles_once. reflexivity. Defined.

(** ** Keys: blank input and padding *)

Section MoreKeys.
Import JS Text JSFacts.

Lemma trimStart_allWhite s : allWhite s = true -> trimStart s = EmptyString.
Proof.
  induction s as [ | c r IH ]; [ reflexivity | ].
  cbn [allWhite trimStart]. intros H. apply andb_true_iff in H as [-> Hr]. auto.
Qed.

Lemma trimEnd_allWhite s : allWhite s = true -> trimEnd s = EmptyString.
Proof.
  induction s as [ | c r IH ]; [ reflexivity | ].
  cbn [allWhite trimEnd]. intros H. apply andb_true_iff in H as [-> Hr].
  now rewrite (IH Hr).
Qed.

Lemma allWhite_app a b :
  allWhite a = true -> allWhite b = true -> allWhite (a ++ b) = true.
Proof.
  induction a as [ | c r IH ]; intros Ha Hb; [ exact Hb | ].
  cbn [append allWhite] in *. apply andb_true_iff in Ha as [-> Hr]. now apply IH.
Qed.

Lemma splitFrom_allWhite s : forall cur,
  allWhite cur = true -> whiteOrComma s = true ->
  Forall (fun k => allWhite k = true) (splitFrom cur s).
Proof.
  induction s as [ | c r IH ]; intros cur Hcur Hs; cbn [splitFrom].
  - now constructor.
  - cbn [whiteOrComma] in Hs. apply andb_true_iff in Hs as [Hc Hr].
    destruct (Ascii.eqb c comma || Ascii.eqb c LF) eqn:Esep.
    + constructor; [ exact Hcur | now apply IH ].
    + apply orb_false_iff in Esep as [Ecomma _]. rewrite Ecomma, orb_false_r in Hc.
      assert (Hnext : allWhite (cur ++ String c EmptyString) = true).
      { apply allWhite_app; [ exact Hcur | ]. cbn [allWhite]. now rewrite Hc. }
      destruct (Ascii.eqb c CR); [ | now apply IH ].
      destruct r as [ | d r' ]; [ now apply IH | ].
      destruct (Ascii.eqb d LF) eqn:Ed; [ | now apply IH ].
      constructor; [ exact Hcur | ].
      specialize (IH EmptyString eq_refl Hr). cbn [splitFrom] in IH.
      assert (Ed' : Ascii.eqb d comma || Ascii.eqb d LF = true)
        by (rewrite Ed; apply orb_true_r).
      rewrite Ed' in IH. now inversion IH.
Qed.

Lemma trimmedNonEmpty_allWhite l :
  Forall (fun k => allWhite k = true) l -> trimmedNonEmpty l = [].
Proof.
  induction 1 as [ | k rest Hk _ IH ]; [ reflexivity | ].
  unfold trimmedNonEmpty in *. cbn [map filter].
  unfold trim. rewrite (trimStart_allWhite _ Hk). cbn. exact IH.
Qed.

Lemma length_trimStart s : (String.length (trimStart s) <= String.length s)%nat.
Proof.
  induction s as [ | c r IH ]; [ reflexivity | ].
  cbn [trimStart]. destruct (isWhiteSpace c); cbn [String.length]; lia.
Qed.

Lemma length_trimEnd s : (String.length (trimEnd s) <= String.length s)%nat.
Proof.
  induction s as [ | c r IH ]; [ reflexivity | ].
  cbn [trimEnd]. destruct (isWhiteSpace c && isEmpty (trimEnd r));
    cbn [String.length]; lia.
Qed.

Lemma trimmed_head k :
  trim k = k -> k <> EmptyString ->
  exists c r, k = String c r /\ isWhiteSpace c = false.
Proof.
  intros Ht Hne. destruct k as [ | c r ]; [ congruence | ].
  exists c, r. split; [ reflexivity | ].
  destruct (isWhiteSpace c) eqn:E; [ exfalso | reflexivity ].
  unfold trim in Ht. cbn [trimStart] in Ht. rewrite E in Ht.
  apply (f_equal String.length) in Ht. cbn [String.length] in Ht.
  pose proof (length_trimEnd (trimStart r)). pose proof (length_trimStart r). lia.
Qed.

Lemma trimStart_app_white pre s :
  allWhite pre = true -> trimStart (pre ++ s) = trimStart s.
Proof.
  induction pre as [ | c r IH ]; intros H; [ reflexivity | ].
  cbn [allWhite] in H. apply andb_true_iff in H as [Hc Hr].
  cbn [append trimStart]. rewrite Hc. now apply IH.
Qed.

Lemma trimEnd_app_white s post :
  allWhite post = true -> trimEnd (s ++ post) = trimEnd s.
Proof.
  intros H. induction s as [ | c r IH ].
  - cbn [append]. now apply trimEnd_allWhite.
  - cbn [append trimEnd]. now rewrite IH.
Qed.

(** White space around a trimmed, non-empty string is what [trim] removes. *)
Lemma trim_padded pre k post :
  trim k = k -> k <> EmptyString ->
  allWhite pre = true -> allWhite post = true ->
  trim (pre ++ k ++ post) = k.
Proof.
  intros Ht Hne Hpre Hpost.
  destruct (trimmed_head k Ht Hne) as (c & r & -> & Hc).
  unfold trim. rewrite trimStart_app_white by exact Hpre.
  cbn [append trimStart]. rewrite Hc.
  change (String c (r ++ post)) with (String c r ++ post)%string.
  rewrite trimEnd_app_white by exact Hpost.
  now apply trim_fixed_trimEnd.
Qed.

Lemma blank_allWhite s : blank s = true -> allWhite s = true.
Proof.
  induction s as [ | c r IH ]; [ reflexivity | ].
  cbn [blank allWhite]. intros H.
  apply andb_true_iff in H as [H Hr]. apply andb_true_iff in H as [H _].
  apply andb_true_iff in H as [-> _]. now apply IH.
Qed.

Lemma white_not_comma c : isWhiteSpace c = true -> Ascii.eqb c comma = false.
Proof.
  intros H. destruct (Ascii.eqb c comma) eqn:E; [ | reflexivity ].
  apply Ascii.eqb_eq in E. subst c. discriminate H.
Qed.

Lemma blank_sepFree s : blank s = true -> sepFree s = true.
Proof.
  induction s as [ | c r IH ]; [ reflexivity | ].
  cbn [blank sepFree]. intros H.
  apply andb_true_iff in H as [H Hr]. apply andb_true_iff in H as [H _].
  apply andb_true_iff in H as [Hw Hlf]. apply negb_true_iff in Hlf.
  rewrite (white_not_comma _ Hw), Hlf, (IH Hr). reflexivity.
Qed.

Lemma endsWithCR_app a b :
  endsWithCR (a ++ b)
  = match b with EmptyString => endsWithCR a | String _ _ => endsWithCR b end.
Proof.
  induction a as [ | c r IH ].
  - cbn [append]. now destruct b.
  - cbn [append]. destruct b as [ | d b' ].
    + now rewrite append_empty_r.
    + change (endsWithCR (String c (r ++ String d b')))
        with (match (r ++ String d b')%string with
              | EmptyString => Ascii.eqb c CR
              | String _ _ => endsWithCR (r ++ String d b')
              end).
      destruct (r ++ String d b')%string eqn:E; [ | exact IH ].
      destruct r; discriminate E.
Qed.

Lemma blank_not_endsWithCR s : blank s = true -> endsWithCR s = false.
Proof.
  induction s as [ | c r IH ]; [ reflexivity | ].
  cbn [blank]. intros H.
  apply andb_true_iff in H as [H Hr]. apply andb_true_iff in H as [_ Hcr].
  apply negb_true_iff in Hcr.
  destruct r as [ | d r' ]; [ exact Hcr | ]. exact (IH Hr).
Qed.

Lemma padded_facts k x :
  cleanKey k -> paddedFrom k x ->
  sepFree x = true /\ endsWithCR x = false /\ trim x = k.
Proof.
  intros (Hne & Htrim & Hfree) (pre & post & Hpre & Hpost & ->).
  split; [ | split ].
  - apply sepFree_app; [ now apply blank_sepFree | ].
    apply sepFree_app; [ exact Hfree | now apply blank_sepFree ].
  - rewrite endsWithCR_app.
    destruct (k ++ post)%string as [ | c r ] eqn:E.
    + destruct k; [ congruence | discriminate E ].
    + rewrite <- E, endsWithCR_app. destruct post.
      * now apply trimmed_not_endsWithCR, trim_fixed_trimEnd.
      * now apply blank_not_endsWithCR.
  - apply trim_padded; auto using blank_allWhite.
Qed.

(** [split] undoes [join] for pieces without separator that do not end in
    CR. *)
Lemma split_join_pieces sep xs :
  isSeparator sep ->
  Forall (fun x => sepFree x = true /\ endsWithCR x = false) xs -> xs <> [] ->
  split (join sep xs) = xs.
Proof.
  intros Hsep Hxs. unfold split.
  induction Hxs as [ | x rest (Hfree & Hcr) Hrest IH ]; [ congruence | intros _ ].
  destruct rest as [ | x' rest' ].
  - cbn [join]. rewrite <- (append_empty_r x) at 1.
    rewrite splitFrom_app by (rewrite ?Hcr; auto). reflexivity.
  - change (join sep (x :: x' :: rest')) with (x ++ sep ++ join sep (x' :: rest'))%string.
    rewrite splitFrom_app by (rewrite ?Hcr; auto).
    cbn [append]. rewrite splitFrom_separator by exact Hsep.
    rewrite IH by discriminate. reflexivity.
Qed.

Lemma trimmedNonEmpty_trims ks xs :
  Forall2 (fun k x => k <> EmptyString /\ trim x = k) ks xs ->
  trimmedNonEmpty xs = ks.
Proof.
  induction 1 as [ | k x ks' xs' (Hne & Ht) _ IH ]; [ reflexivity | ].
  unfold trimmedNonEmpty in *. cbn [map filter]. rewrite Ht, IH.
  destruct k; [ congruence | reflexivity ].
Qed.

Lemma Forall2_padded ks xs :
  Forall cleanKey ks -> Forall2 paddedFrom ks xs ->
  Forall2 (fun k x => k <> EmptyString /\ trim x = k) ks xs
  /\ Forall (fun x => sepFree x = true /\ endsWithCR x = false) xs.
Proof.
  intros Hks H. induction H as [ | k x ks' xs' Hkx _ IH ].
  - split; constructor.
  - inversion Hks as [ | ? ? Hk Hks' ]; subst.
    destruct (IH Hks') as [IH1 IH2].
    destruct (padded_facts _ _ Hk Hkx) as (H1 & H2 & H3).
    split; constructor; auto. split; [ apply Hk | exact H3 ].
Qed.

End MoreKeys.

(** A key string that holds nothing but white space, line breaks and commas
    yields no key: the request is refused with the message that a source key
    is required, and no call is made to the store. *)
Theorem blank_key_list_is_refused `{B : Backend} i p w s :
  sourceBucket p <> EmptyString ->
  sourceKeysParam p = KeysString s ->
  Text.whiteOrComma s = true ->
  parseKeys (sourceKeysParam p) = []
  /\ processItem i p w
     = (Throw (NodeOperationError "At least one source key is required" i), w).
Proof.
  intros Hb Hk Hs.
  assert (Hnone : parseKeys (sourceKeysParam p) = []).
  { rewrite Hk. cbn [parseKeys].
    apply trimmedNonEmpty_allWhite, splitFrom_allWhite; auto. }
  split; [ exact Hnone | ].
  unfold processItem, bind, layoutOf. rewrite Hnone.
  destruct (sourceBucket p); [ congruence | reflexivity ].
Qed.

Lemma blank_key_list_is_refused_witness :
  processItem 2 (Fake.request (String " " (String JS.LF (String "," " "))) 0 left)
    Fake.shelf
  = (Throw (NodeOperationError "At least one source key is required" 2), Fake.shelf).
Proof.
  apply (blank_key_list_is_refused 2 _ Fake.shelf
           (String " " (String JS.LF (String "," " "))));
    [ discriminate | reflexivity | reflexivity ].
Defined.

(** Padding of spaces or tabs around the keys of a separated list is
    dropped: the parsed keys are the keys themselves, in order and with their
    duplicates. *)
Theorem padding_around_keys_is_dropped sep ks xs :
  Text.isSeparator sep ->
  Forall Text.cleanKey ks ->
  Forall2 Text.paddedFrom ks xs ->
  parseKeys (KeysString (Text.join sep xs)) = ks.
Proof.
  intros Hsep Hks Hpad. cbn [parseKeys].
  destruct (Forall2_padded _ _ Hks Hpad) as [Htrim Hpieces].
  destruct xs as [ | x xs' ]; [ now inversion Hpad | ].
  rewrite split_join_pieces by (auto; discriminate).
  now apply trimmedNonEmpty_trims.
Qed.

Lemma padding_around_keys_is_dropped_witness :
  parseKeys (KeysString (Text.join "," [" a.png"; "b.png  "; " a.png "]))
  = ["a.png"; "b.png"; "a.png"].
Proof.
  apply padding_around_keys_is_dropped.
  - left. reflexivity.
  - repeat constructor; discriminate.
  - repeat constructor.
    + exists " ", EmptyString. repeat split.
    + exists EmptyString, "  ". repeat split.
    + exists " ", " ". repeat split.
Defined.

(** Keys given as an array (or as an object with a [keys] array) are not
    split: elements that are non-empty and trimmed are the parsed keys as
    they are, commas and line feeds included. *)
Theorem array_keys_are_not_split ks :
  Forall (fun k => k <> EmptyString /\ JS.trim k = k) ks ->
  parseKeys (KeysArray ks) = ks /\ parseKeys (KeysObject ks) = ks.
Proof.
  intros H.
  assert (E : trimmedNonEmpty ks = ks).
  { induction H as [ | k rest (Hne & Ht) _ IH ]; [ reflexivity | ].
    unfold trimmedNonEmpty in *. cbn [map filter]. rewrite Ht, IH.
    destruct k; [ congruence | reflexivity ]. }
  split; exact E.
Qed.

Lemma array_keys_are_not_split_witness :
  parseKeys (KeysArray ["a,b.png"; "c.png"]) = ["a,b.png"; "c.png"]
  /\ parseKeys (KeysString "a,b.png") = ["a"; "b.png"].
Proof.
  split; [ | reflexivity ].
  apply array_keys_are_not_split. repeat constructor; discriminate.
Defined.

(** ** Background colour: well-formed and padded inputs *)

Section MoreBackground.
Import JS Text JSFacts.

Lemma hexDigit_not_hash c d : hexDigit c = Some d -> Ascii.eqb c "#" = false.
Proof.
  intros H.
  assert (E : forall a,
    (match hexDigit a with Some _ => negb (Ascii.eqb a "#") | None => true end) = true)
    by (apply by_cases; vm_compute; reflexivity).
  specialize (E c). rewrite H in E. now apply negb_true_iff.
Qed.

Lemma length_toLowerCase s : String.length (toLowerCase s) = String.length s.
Proof. induction s; cbn; congruence. Qed.

Lemma length_append (a b : string) :
  String.length (a ++ b) = (String.length a + String.length b)%nat.
Proof. induction a; cbn; congruence. Qed.

Lemma not_transparent_by_length s :
  String.length s <> 11%nat -> (toLowerCase s =? "transparent")%string = false.
Proof.
  intros H. apply String.eqb_neq. intros E.
  apply (f_equal String.length) in E. rewrite length_toLowerCase in E.
  apply H. exact E.
Qed.

Lemma replaceFirst_white pre s :
  allWhite pre = true ->
  replaceFirst "#" (pre ++ s) = (pre ++ replaceFirst "#" s)%string.
Proof.
  induction pre as [ | c r IH ]; intros H; [ reflexivity | ].
  cbn [allWhite] in H. apply andb_true_iff in H as [Hc Hr].
  cbn [append replaceFirst].
  destruct (Ascii.eqb c "#") eqn:E.
  - apply Ascii.eqb_eq in E. subst c. discriminate Hc.
  - now rewrite IH.
Qed.

End MoreBackground.

(** Six hexadecimal digits, in either case and with or without the leading
    [#], are read as the opaque colour they spell: each channel is the byte
    of its two digits, between 0 and 255, and the alpha is 1. *)
Theorem background_rgb_bytes c1 c2 c3 c4 c5 c6 d1 d2 d3 d4 d5 d6 :
  JS.hexDigit c1 = Some d1 -> JS.hexDigit c2 = Some d2 -> JS.hexDigit c3 = Some d3 ->
  JS.hexDigit c4 = Some d4 -> JS.hexDigit c5 = Some d5 -> JS.hexDigit c6 = Some d6 ->
  let digits :=
    String c1 (String c2 (String c3 (String c4 (String c5 (String c6 EmptyString))))) in
  let colour :=
    Color.mk (Some (16 * d1 + d2)) (Some (16 * d3 + d4)) (Some (16 * d5 + d6))
      (Some (1 # 1)%Q) in
  parseBackgroundColor (Some (String "#" digits)) = colour
  /\ parseBackgroundColor (Some digits) = colour
  /\ 0 <= 16 * d1 + d2 <= 255 /\ 0 <= 16 * d3 + d4 <= 255 /\ 0 <= 16 * d5 + d6 <= 255.
Proof.
  intros H1 H2 H3 H4 H5 H6 digits colour.
  pose proof (background_hex6 _ _ _ _ _ _ _ _ _ _ _ _ H1 H2 H3 H4 H5 H6) as Hhash.
  split; [ exact Hhash | ]. split.
  - unfold colour. rewrite <- Hhash. unfold parseBackgroundColor, digits.
    rewrite !not_transparent_by_length by (cbn; discriminate).
    cbn [JS.isEmpty orb].
    cbn [JS.replaceFirst].
    rewrite (hexDigit_not_hash _ _ H1), (hexDigit_not_hash _ _ H2),
      (hexDigit_not_hash _ _ H3), (hexDigit_not_hash _ _ H4),
      (hexDigit_not_hash _ _ H5), (hexDigit_not_hash _ _ H6).
    reflexivity.
  - apply JSFacts.hexDigit_range in H1, H2, H3, H4, H5, H6. lia.
Qed.

Lemma background_rgb_bytes_witness :
  parseBackgroundColor (Some "#1aF09c")
  = Color.mk (Some 26) (Some 240) (Some 156) (Some (1 # 1)%Q)
  /\ parseBackgroundColor (Some "1aF09c") = parseBackgroundColor (Some "#1aF09c").
Proof.
  destruct (background_rgb_bytes "1" "a" "F" "0" "9" "c" 1 10 15 0 9 12
              eq_refl eq_refl eq_refl eq_refl eq_refl eq_refl) as (H1 & H2 & _).
  split; [ exact H1 | ]. rewrite H2. symmetry. exact H1.
Defined.

Lemma background_hex8_witness :
  parseBackgroundColor (Some "#00ff0080")
  = Color.mk (Some 0) (Some 255) (Some 0) (Some (128 # 255)%Q)
  /\ (0 <= 128 # 255 <= 1)%Q.
Proof.
  exact (background_hex8 "0" "0" "f" "f" "0" "0" "8" "0" 0 0 15 15 0 0 8 0
           eq_refl eq_refl eq_refl eq_refl eq_refl eq_refl eq_refl eq_refl).
Defined.

(** The word [transparent] is not trimmed before it is compared: with white
    space before or after it, the input is read as a malformed colour and
    gives opaque white, not a transparent background. *)
Theorem padded_transparent_is_white pre post :
  Text.allWhite pre = true -> Text.allWhite post = true ->
  (pre <> EmptyString \/ post <> EmptyString) ->
  parseBackgroundColor (Some (pre ++ "transparent" ++ post)%string) = opaqueWhite.
Proof.
  intros Hpre Hpost Hpad. unfold parseBackgroundColor.
  assert (Hlen : String.length (pre ++ "transparent" ++ post) <> 11%nat).
  { rewrite !length_append. cbn [String.length].
    destruct Hpad as [H | H]; [ destruct pre | destruct post ];
      try congruence; cbn [String.length]; lia. }
  rewrite (not_transparent_by_length _ Hlen), orb_false_r.
  assert (Hne : JS.isEmpty (pre ++ "transparent" ++ post) = false)
    by (destruct pre; reflexivity).
  rewrite Hne.
  rewrite replaceFirst_white by exact Hpre.
  cbn [append JS.replaceFirst Ascii.eqb Bool.eqb].
  replace (JS.replaceFirst "#" post) with post
    by (rewrite <- (JSFacts.append_empty_r post) at 2;
        rewrite replaceFirst_white by exact Hpost;
        now rewrite JSFacts.append_empty_r).
  change (String "t" (String "r" (String "a" (String "n" (String "s" (String "p"
            (String "a" (String "r" (String "e" (String "n" (String "t" post)))))))))))
    with ("transparent" ++ post)%string.
  rewrite trim_padded by (auto; discriminate).
  reflexivity.
Qed.

Lemma padded_transparent_is_white_witness :
  parseBackgroundColor (Some " transparent") = opaqueWhite
  /\ parseBackgroundColor (Some "Transparent") = transparent.
Proof.
  split; [ | reflexivity ].
  apply (padded_transparent_is_white " " EmptyString);
    [ reflexivity | reflexivity | left; discriminate ].
Defined.

(** ** Fetching *)

Section MoreFetching.
Context `{B : Backend}.

Lemma fetchImages_sources i bucket ks : forall w ims w',
  fetchImages i bucket ks w = (Ok ims, w') ->
  Forall2 (fetchedFrom (store w) bucket) ks ims.
Proof.
  induction ks as [ | k rest IH ]; intros w ims w' H; cbn [fetchImages] in H.
  - injection H as <- _. constructor.
  - apply bind_Ok in H as (buf & w1 & Hget & H).
    apply bind_Ok in H as (meta & w2 & Hmeta & H).
    unfold getObjectM in Hget. unfold lift in Hmeta.
    injection Hmeta as Hmeta <-. injection Hget as Hget <-.
    destruct meta as [[mw | ] [mh | ]]; try discriminate.
    destruct (falsy (Some mw) || falsy (Some mh)) eqn:Efalsy; [ discriminate | ].
    apply bind_Ok in H as (more & w3 & Hmore & H).
    injection H as <- _.
    apply IH in Hmore. cbn [store] in Hmore.
    constructor; [ | exact Hmore ].
    apply orb_false_iff in Efalsy as [Hw Hh]. cbn in Hw, Hh.
    apply Z.eqb_neq in Hw, Hh. red. cbn. auto.
Qed.

Lemma fetchImages_app i bucket pre post : forall w ims w1,
  fetchImages i bucket pre w = (Ok ims, w1) ->
  fetchImages i bucket (pre ++ post) w
  = match fetchImages i bucket post w1 with
    | (Ok more, w2) => (Ok (ims ++ more), w2)
    | (Throw e, w2) => (Throw e, w2)
    end.
Proof.
  induction pre as [ | k rest IH ]; intros w ims w1 H; cbn [fetchImages app] in *.
  - injection H as <- <-. cbn [app]. now destruct (fetchImages i bucket post w) as [[? | ?] ?].
  - apply bind_Ok in H as (buf & wa & Hget & H).
    apply bind_Ok in H as (meta & wb & Hmeta & H).
    unfold bind at 1. rewrite Hget. unfold bind at 1. rewrite Hmeta.
    destruct meta as [[mw | ] [mh | ]]; try discriminate.
    destruct (falsy (Some mw) || falsy (Some mh)); [ discriminate | ].
    apply bind_Ok in H as (more & wc & Hmore & H).
    injection H as <- <-.
    unfold bind at 1. rewrite (IH _ _ _ Hmore).
    now destruct (fetchImages i bucket post wc) as [[? | ?] ?].
Qed.

(** The request stops at the first key it cannot use: what [processItem]
    returns when the keys before [key] are fetched and the step for [key]
    throws [e]. *)
Lemma processItem_stops_at i p w pre key post ims w1 e w2 :
  sourceBucket p <> EmptyString ->
  parseKeys (sourceKeysParam p) = pre ++ key :: post ->
  fetchImages i (sourceBucket p) pre w = (Ok ims, w1) ->
  fetchImages i (sourceBucket p) [key] w1 = (Throw e, w2) ->
  processItem i p w = (Throw e, w2).
Proof.
  intros Hb Hk Hpre Hkey.
  assert (Hall : fetchImages i (sourceBucket p) (pre ++ key :: post) w = (Throw e, w2)).
  { rewrite (fetchImages_app _ _ _ _ _ _ _ Hpre).
    change (key :: post) with ([key] ++ post).
    cbn [fetchImages] in Hkey.
    cbn [fetchImages app]. unfold bind in *.
    destruct (getObjectM (sourceBucket p) key w1) as [[buf | e1] wa]; [ | exact Hkey ].
    destruct (lift (metadata buf) wa) as [[meta | e2] wb]; [ | exact Hkey ].
    destruct meta as [[mw | ] [mh | ]]; try exact Hkey.
    destruct (falsy (Some mw) || falsy (Some mh)); [ exact Hkey | ].
    destruct (fetchImages i (sourceBucket p) [] wb) as [[? | ?] ?] eqn:E;
      cbn [fetchImages] in E; unfold ret in E; [ | discriminate E ].
    injection E as <- <-. discriminate Hkey. }
  unfold processItem, layoutOf. rewrite Hk.
  destruct (sourceBucket p) eqn:Eb; [ congruence | ]. cbn [JS.truthy JS.isEmpty negb].
  destruct (List.length (pre ++ key :: post) =? 0)%nat eqn:El.
  - apply Nat.eqb_eq in El. rewrite length_app in El. cbn in El. lia.
  - unfold bind at 1. unfold bind at 1. unfold bind at 1. now rewrite Hall.
Qed.

End MoreFetching.

Section FetchClaims.
Context `{B : Backend}.

(** A request whose layout is computed has read one object per parsed key,
    in key order and from the source bucket, duplicates included, and has
    written nothing; each fetched image holds the object of its key and the
    non-zero size its metadata reports. *)
Theorem one_get_per_key_in_order i p w l w' :
  layoutOf i p w = (Ok l, w') ->
  store w' = store w
  /\ trace w' = trace w ++ map (EvGet (sourceBucket p)) (keys l)
  /\ List.length (fetched l) = List.length (keys l)
  /\ Forall2 (fetchedFrom (store w) (sourceBucket p)) (keys l) (fetched l).
Proof.
  intros H. pose proof (quiet_layoutOf _ _ _ _ _ H) as (Hs & _).
  apply layoutOf_Ok in H as (_ & _ & _ & Hf & _).
  pose proof (fetchImages_Ok _ _ _ _ _ _ Hf) as (Hlen & Htrace & _).
  repeat split; auto. exact (fetchImages_sources _ _ _ _ _ _ Hf).
Qed.

(** When the object of a key is missing (the store throws [e]) and the keys
    before it were fetched, the request fails with [e] itself; the store has
    been asked for the keys up to that one and for none after it. *)
Theorem missing_object_stops_the_request i p w pre key post ims w1 e :
  sourceBucket p <> EmptyString ->
  parseKeys (sourceKeysParam p) = pre ++ key :: post ->
  fetchImages i (sourceBucket p) pre w = (Ok ims, w1) ->
  getObject (store w) (sourceBucket p) key = Throw e ->
  processItem i p w
  = (Throw e,
     mkWorld (store w) (trace w ++ map (EvGet (sourceBucket p)) (pre ++ [key]))).
Proof.
  intros Hb Hk Hpre Hget.
  pose proof (fetchImages_Ok _ _ _ _ _ _ Hpre) as (_ & Htrace & _).
  pose proof (quiet_fetchImages _ _ _ _ _ _ Hpre) as (Hs & _).
  apply (processItem_stops_at i p w pre key post ims w1); auto.
  cbn [fetchImages]. unfold bind, getObjectM. rewrite Hs, Hget, Htrace.
  now rewrite map_app, app_assoc.
Qed.

(** When the metadata of an object lacks a width or a height, or gives 0
    for one, the request fails with the message that names the key and with
    the item index, after the same reads. *)
Theorem unreadable_image_stops_the_request i p w pre key post ims w1 buf mw mh :
  sourceBucket p <> EmptyString ->
  parseKeys (sourceKeysParam p) = pre ++ key :: post ->
  fetchImages i (sourceBucket p) pre w = (Ok ims, w1) ->
  getObject (store w) (sourceBucket p) key = Ok buf ->
  metadata buf = Ok (mw, mh) ->
  falsy mw || falsy mh = true ->
  processItem i p w
  = (Throw (NodeOperationError
              ("Could not read image metadata for key: " ++ key)%string i),
     mkWorld (store w) (trace w ++ map (EvGet (sourceBucket p)) (pre ++ [key]))).
Proof.
  intros Hb Hk Hpre Hget Hmeta Hfalsy.
  pose proof (fetchImages_Ok _ _ _ _ _ _ Hpre) as (_ & Htrace & _).
  pose proof (quiet_fetchImages _ _ _ _ _ _ Hpre) as (Hs & _).
  apply (processItem_stops_at i p w pre key post ims w1); auto.
  cbn [fetchImages]. unfold bind, getObjectM, lift. rewrite Hs, Hget, Hmeta, Htrace.
  rewrite map_app, app_assoc.
  destruct mw as [mw | ], mh as [mh | ]; try reflexivity.
  now rewrite Hfalsy.
Qed.

End FetchClaims.

Lemma one_get_per_key_in_order_witness :
  exists l w',
    layoutOf 0 (Fake.request "a.png,b.png,a.png" 0 left) Fake.shelf = (Ok l, w')
    /\ store w' = store Fake.shelf
    /\ trace w' = [EvGet "in" "a.png"; EvGet "in" "b.png"; EvGet "in" "a.png"].
Proof.
  destruct (layoutOf 0 (Fake.request "a.png,b.png,a.png" 0 left) Fake.shelf)
    as [[l | e] w'] eqn:E; [ | vm_compute in E; discriminate E ].
  destruct (one_get_per_key_in_order _ _ _ _ _ E) as (Hs & Ht & _).
  exists l, w'. split; [ reflexivity | ]. split; [ exact Hs | ].
  rewrite Ht. vm_compute in E. injection E as <- _. reflexivity.
Defined.

Lemma missing_object_stops_the_request_witness :
  processItem 0 (Fake.request "a.png,zzz.png,b.png" 0 left) Fake.shelf
  = (Throw (mkError "The specified key does not exist." None),
     mkWorld (store Fake.shelf) [EvGet "in" "a.png"; EvGet "in" "zzz.png"]).
Proof.
  apply (missing_object_stops_the_request 0
           (Fake.request "a.png,zzz.png,b.png" 0 left) Fake.shelf
           ["a.png"] "zzz.png" ["b.png"]
           [mkImage (100, 50) 100 50]
           (mkWorld (store Fake.shelf) [EvGet "in" "a.png"]));
    [ discriminate | reflexivity | reflexivity | reflexivity ].
Defined.

Lemma unreadable_image_stops_the_request_witness :
  processItem 4 (Fake.request "empty.png" 0 left) Fake.emptyPicture
  = (Throw (NodeOperationError "Could not read image metadata for key: empty.png" 4),
     mkWorld (store Fake.emptyPicture) [EvGet "in" "empty.png"]).
Proof.
  apply (unreadable_image_stops_the_request (B := Fake.backend) 4
           (Fake.request "empty.png" 0 left) Fake.emptyPicture
           [] "empty.png" [] [] Fake.emptyPicture
           (0, 5) (Some 0) (Some 5));
    [ discriminate | reflexivity | reflexivity | reflexivity | reflexivity
    | reflexivity ].
Defined.

(** ** Width normalisation and placement *)

Section MoreLayout.
Context `{B : Backend} {L : BackendLaws B}.

Lemma placed_width_le_canvas i p w l w' :
  layoutOf i p w = (Ok l, w') ->
  Forall (fun im => width im <= canvasWidth l) (images l).
Proof.
  intros H.
  pose proof (layout_normalised _ _ _ _ _ H) as (Hcw & Hn).
  pose proof (fetched_widest _ _ _ _ _ H) as (_ & Hall).
  rewrite Forall_forall in Hall.
  assert (Hn' : Forall2 (fun src im => In src (fetched l)
                  /\ normalisedFrom (normalizeWidth p) (allowUpscale p)
                       (canvasWidth l) src im) (fetched l) (images l)).
  { clear - Hn. induction Hn; constructor.
    - split; [ now left | assumption ].
    - eapply Forall2_impl; [ | exact IHHn ].
      intros a b (Ha & Hb). split; [ now right | exact Hb ]. }
  apply (Forall2_Forall_r _ _ _ _ Hn'). intros src im (Hin & _ & Hrel).
  specialize (Hall _ Hin).
  destruct (normalizeWidth p).
  - destruct (negb (allowUpscale p) && (width src <? canvasWidth l)) eqn:E.
    + apply andb_true_iff in E as [_ E]. apply Z.ltb_lt in E. lia.
    + lia.
  - subst im. cbn in Hcw. lia.
Qed.

Lemma last_bottom_edge i p w l w' last o :
  layoutOf i p w = (Ok l, w') ->
  nth_error (images l) (List.length (images l) - 1) = Some last ->
  nth_error (composites l) (List.length (images l) - 1) = Some o ->
  top o + height last
  = sumZ (map height (images l))
    + (Z.of_nat (List.length (images l)) - 1) * spacing p.
Proof.
  intros H Hl Ho.
  pose proof (layout_lengths _ _ _ _ _ H) as (_ & _ & Hn).
  rewrite (composites_nth _ _ _ _ _ _ _ H Hl) in Ho. injection Ho as <-.
  cbn [top]. unfold topOf. rewrite (sum_all_but_last _ _ Hl).
  rewrite Nat2Z.inj_sub by lia. cbn. lia.
Qed.

(** Every image is drawn inside the canvas from side to side, whatever the
    alignment and the normalisation settings: its left offset is not negative
    and its right edge does not pass the canvas width. *)
Theorem images_fit_the_canvas_width i p w l w' k im o :
  layoutOf i p w = (Ok l, w') ->
  nth_error (images l) k = Some im ->
  nth_error (composites l) k = Some o ->
  width im <= canvasWidth l
  /\ 0 <= left_ o
  /\ left_ o + width im <= canvasWidth l.
Proof.
  intros H Hk Ho.
  pose proof (placed_width_le_canvas _ _ _ _ _ H) as Hall.
  rewrite Forall_forall in Hall. specialize (Hall _ (nth_error_In _ _ Hk)).
  rewrite (composites_nth _ _ _ _ _ _ _ H Hk) in Ho. injection Ho as <-.
  cbn [left_]. split; [ exact Hall | ].
  unfold leftOffset. destruct (alignment p); try lia.
  pose proof (Z.div_pos (canvasWidth l - width im) 2 ltac:(lia) ltac:(lia)).
  pose proof (Z.div_mod (canvasWidth l - width im) 2 ltac:(lia)).
  pose proof (Z.mod_pos_bound (canvasWidth l - width im) 2 ltac:(lia)). lia.
Qed.

(** With a spacing that is not negative, every image is drawn inside the
    canvas from top to bottom, and each image starts exactly [spacing] below
    the bottom edge of the one before it: no two images share a row. *)
Theorem images_stack_without_overlap i p w l w' :
  layoutOf i p w = (Ok l, w') ->
  0 <= spacing p ->
  (forall k im o, nth_error (images l) k = Some im ->
     nth_error (composites l) k = Some o ->
     0 < height im /\ 0 <= top o /\ top o + height im <= canvasHeight l)
  /\ (forall j k imj oj ok, (j < k)%nat ->
        nth_error (images l) j = Some imj ->
        nth_error (composites l) j = Some oj ->
        nth_error (composites l) k = Some ok ->
        top oj + height imj + spacing p <= top ok).
Proof.
  intros H Hs.
  pose proof (layout_heights_pos _ _ _ _ _ H) as Hpos.
  pose proof (layout_lengths _ _ _ _ _ H) as (_ & _ & Hn).
  pose proof (canvasHeight_eq _ _ _ _ _ H) as Hc.
  assert (Hstrict : forall im, In im (images l) -> 0 < height im).
  { pose proof (layout_normalised _ _ _ _ _ H) as (_ & Hnorm).
    assert (Hf : Forall (fun im => 0 < height im) (images l))
      by (apply (Forall2_Forall_r _ _ _ _ Hnorm); intros a b (Hb & _); exact Hb).
    now rewrite Forall_forall in Hf. }
  assert (Hnext : forall j k imj oj ok, (j < k)%nat ->
        nth_error (images l) j = Some imj ->
        nth_error (composites l) j = Some oj ->
        nth_error (composites l) k = Some ok ->
        top oj + height imj + spacing p <= top ok).
  { intros j k imj oj ok Hjk Hj Hoj Hok.
    assert (Hlt : (k < List.length (images l))%nat).
    { rewrite <- (composites_length _ _ _ _ _ H). apply nth_error_Some. congruence. }
    rewrite (composites_nth _ _ _ _ _ _ _ H Hj) in Hoj. injection Hoj as <-.
    apply (composites_nth_inv _ _ _ _ _ _ _ H) in Hok as (imk & _ & ->).
    cbn [top]. rewrite <- (topOf_succ _ _ _ _ Hj).
    apply topOf_mono; auto; lia. }
  split; [ | exact Hnext ].
  intros k im o Hk Ho.
  split; [ apply Hstrict; eapply nth_error_In; exact Hk | ].
  assert (Hlt : (k < List.length (images l))%nat)
    by (apply nth_error_Some; congruence).
  pose proof Ho as Ho'.
  rewrite (composites_nth _ _ _ _ _ _ _ H Hk) in Ho'. injection Ho' as Ho'.
  split.
  - rewrite <- Ho'. cbn [top].
    apply (topOf_mono (spacing p) (images l) Hs Hpos k 0%nat); lia.
  - destruct (nth_error (images l) (List.length (images l) - 1)) as [last | ] eqn:El;
      [ | apply nth_error_None in El; lia ].
    destruct (nth_error (composites l) (List.length (images l) - 1)) as [ol | ] eqn:Eol;
      [ | apply nth_error_None in Eol;
          rewrite (composites_length _ _ _ _ _ H) in Eol; lia ].
    pose proof (last_bottom_edge _ _ _ _ _ _ _ H El Eol) as Hlast.
    assert (Hmax : Z.max 0 ((Z.of_nat (List.length (images l)) - 1) * spacing p)
                   = (Z.of_nat (List.length (images l)) - 1) * spacing p) by nia.
    rewrite Hc, Hmax, <- Hlast.
    destruct (Nat.eq_dec k (List.length (images l) - 1)) as [-> | Hne].
    + rewrite El in Hk. injection Hk as ->. rewrite Eol in Ho. injection Ho as ->. lia.
    + pose proof (Hnext k (List.length (images l) - 1)%nat im o ol
                    ltac:(lia) Hk Ho Eol).
      pose proof (Hstrict _ (nth_error_In _ _ El)). lia.
Qed.

End MoreLayout.

Lemma images_fit_the_canvas_width_witness :
  exists l w' im o,
    layoutOf 0 (Fake.requestNoUpscale "a.png,c.png" center) Fake.shelf = (Ok l, w')
    /\ nth_error (images l) 1 = Some im
    /\ nth_error (composites l) 1 = Some o
    /\ left_ o = 20 /\ left_ o + width im <= canvasWidth l.
Proof.
  destruct (layoutOf 0 (Fake.requestNoUpscale "a.png,c.png" center) Fake.shelf)
    as [[l | e] w'] eqn:E; [ | vm_compute in E; discriminate E ].
  pose proof (fun im o => images_fit_the_canvas_width (L := Fake_laws)
                            _ _ _ _ _ 1%nat im o E) as H.
  vm_compute in E. injection E as <- <-.
  destruct (H _ _ eq_refl eq_refl) as (_ & _ & Hfit).
  eexists _, _, _, _. split; [ reflexivity | ].
  split; [ reflexivity | ]. split; [ reflexivity | ].
  split; [ reflexivity | exact Hfit ].
Defined.

Lemma images_stack_without_overlap_witness :
  exists l w' o0 o1,
    layoutOf 0 (Fake.request "a.png,b.png" 10 left) Fake.shelf = (Ok l, w')
    /\ nth_error (composites l) 0 = Some o0
    /\ nth_error (composites l) 1 = Some o1
    /\ top o0 + 50 + 10 <= top o1
    /\ top o1 + 80 <= canvasHeight l.
Proof.
  destruct (layoutOf 0 (Fake.request "a.png,b.png" 10 left) Fake.shelf)
    as [[l | e] w'] eqn:E; [ | vm_compute in E; discriminate E ].
  destruct (images_stack_without_overlap (L := Fake_laws) _ _ _ _ _ E ltac:(cbn; lia))
    as (Hin & Hnext).
  vm_compute in E. injection E as <- <-.
  eexists _, _, _, _. split; [ reflexivity | ].
  split; [ reflexivity | ]. split; [ reflexivity | ].
  split.
  - exact (Hnext 0%nat 1%nat (mkImage (100, 50) 100 50) _ _
             ltac:(lia) eq_refl eq_refl eq_refl).
  - exact (proj2 (proj2 (Hin 1%nat (mkImage (100, 80) 100 80) _ eq_refl eq_refl))).
Defined.

Section MoreNormalisation.
Context `{B : Backend} {L : BackendLaws B}.

(** With [normalizeWidth] off nothing is resized: the images are placed as
    they were fetched, buffers included, whatever the target width and
    [allowUpscale] are, and the canvas is as wide as the widest of them. *)
Theorem normalisation_off_keeps_images i p w l w' :
  layoutOf i p w = (Ok l, w') ->
  normalizeWidth p = false ->
  images l = fetched l
  /\ canvasWidth l = Math_max (map width (fetched l))
  /\ In (canvasWidth l) (map width (images l))
  /\ Forall (fun im => width im <= canvasWidth l) (images l).
Proof.
  intros H Hnw.
  pose proof (fetched_widest _ _ _ _ _ H) as (Hin & Hall).
  apply layoutOf_Ok in H as (_ & _ & _ & _ & Hn & _).
  rewrite Hnw in Hn. unfold normalize in Hn. injection Hn as Hi Hc.
  rewrite <- Hi, <- Hc. auto.
Qed.

(** With [normalizeWidth] on, a positive target width is the canvas width
    and a target width that is not positive stands for the widest source; an
    image that already has the canvas width is placed as it was fetched; and
    when [allowUpscale] is on every placed image has the canvas width. *)
Theorem target_width_rules_the_canvas i p w l w' :
  layoutOf i p w = (Ok l, w') ->
  normalizeWidth p = true ->
  (0 < targetWidthParam p -> canvasWidth l = targetWidthParam p)
  /\ (targetWidthParam p <= 0 -> canvasWidth l = Math_max (map width (fetched l)))
  /\ (forall k src, nth_error (fetched l) k = Some src ->
        width src = canvasWidth l -> nth_error (images l) k = Some src)
  /\ (allowUpscale p = true -> Forall (fun im => width im = canvasWidth l) (images l)).
Proof.
  intros H Hnw.
  pose proof (layout_normalised _ _ _ _ _ H) as (Hcw & Hn).
  pose proof (layoutOf_Ok _ _ _ _ _ H) as (_ & _ & _ & _ & Hnorm & _).
  rewrite Hnw in Hcw, Hn, Hnorm.
  split; [ | split; [ | split ] ].
  - intros Htw. rewrite Hcw. unfold targetWidthOf.
    destruct (targetWidthParam p =? 0) eqn:E0; [ apply Z.eqb_eq in E0; lia | ].
    destruct (0 <? targetWidthParam p) eqn:E1; [ reflexivity | ].
    apply Z.ltb_ge in E1. lia.
  - intros Htw. rewrite Hcw. unfold targetWidthOf.
    destruct (0 <? targetWidthParam p) eqn:E1;
      [ apply Z.ltb_lt in E1; lia | now rewrite andb_false_r ].
  - intros k src Hk Hw. unfold normalize in Hnorm. rewrite <- Hcw in Hnorm.
    destruct (resizeAll (canvasWidth l) (allowUpscale p) (fetched l)) as [r | e] eqn:Er;
      [ | discriminate ].
    injection Hnorm as Hi. apply resizeAll_Forall2 in Er.
    destruct (Forall2_nth _ _ _ Er _ _ Hk) as (im & Him & Hone).
    rewrite <- Hi, Him. unfold resizeOne in Hone.
    rewrite <- Hw, Z.eqb_refl in Hone. cbn [negb] in Hone. congruence.
  - intros Hup. rewrite Hup in Hn.
    apply (Forall2_Forall_r _ _ _ _ Hn). intros a b (_ & Hb). exact Hb.
Qed.

End MoreNormalisation.

Lemma normalisation_off_keeps_images_witness :
  exists l w',
    layoutOf 0 (mkParams "in" (KeysString "a.png,c.png") 0 left false 500 true
                  "transparent" png 80 EmptyString EmptyString true "data")
      Fake.shelf = (Ok l, w')
    /\ images l = fetched l /\ canvasWidth l = 100.
Proof.
  destruct (layoutOf 0 (mkParams "in" (KeysString "a.png,c.png") 0 left false 500 true
                  "transparent" png 80 EmptyString EmptyString true "data")
              Fake.shelf)
    as [[l | e] w'] eqn:E; [ | vm_compute in E; discriminate E ].
  destruct (normalisation_off_keeps_images _ _ _ _ _ E eq_refl) as (H1 & H2 & _).
  exists l, w'. split; [ reflexivity | ]. split; [ exact H1 | ].
  rewrite H2. vm_compute in E. injection E as <- _. reflexivity.
Defined.

Lemma target_width_rules_the_canvas_witness :
  exists l w',
    layoutOf 0 (mkParams "in" (KeysString "a.png,c.png") 0 left true 50 true
                  "transparent" png 80 EmptyString EmptyString true "data")
      Fake.shelf = (Ok l, w')
    /\ canvasWidth l = 50
    /\ Forall (fun im => width im = canvasWidth l) (images l).
Proof.
  destruct (layoutOf 0 (mkParams "in" (KeysString "a.png,c.png") 0 left true 50 true
                  "transparent" png 80 EmptyString EmptyString true "data")
              Fake.shelf)
    as [[l | e] w'] eqn:E; [ | vm_compute in E; discriminate E ].
  destruct (target_width_rules_the_canvas (L := Fake_laws) _ _ _ _ _ E eq_refl)
    as (H1 & _ & _ & H2).
  exists l, w'. split; [ reflexivity | ].
  split; [ apply H1; cbn; lia | apply H2; reflexivity ].
Defined.

(** ** Results, failures after the layout, and batches *)

Section MoreResults.
Context `{B : Backend}.


(** For the png format the quality has no effect on what the request does
    and returns. *)
Theorem png_ignores_quality i p w q :
  format p = png ->
  processItem i (withQuality q p) w = processItem i p w.
Proof.
  intros Hf. rewrite !processItem_run.
  assert (Hl : layoutOf i (withQuality q p) w = layoutOf i p w) by reflexivity.
  rewrite Hl. destruct (layoutOf i p w) as [[l | e] w1]; [ | reflexivity ].
  assert (He : encode (withQuality q p) l w1 = encode p l w1).
  { unfold encode. cbn [withQuality format quality]. now rewrite Hf. }
  rewrite He. reflexivity.
Qed.

(** When the upload fails the request fails with the error of the store and
    returns no item, although the canvas was encoded; the upload was
    attempted once. *)
Theorem failed_upload_fails_the_request i p w l w1 out s' e :
  encoded i p w l w1 out ->
  wantsUpload p = true ->
  putObject (store w1) (destinationBucket p) (destinationKey p) out
    (bufferLength out) (mimeTypeOf (format p)) = (s', Throw e) ->
  processItem i p w
  = (Throw e,
     mkWorld s' (trace w1 ++ [EvPut (destinationBucket p) (destinationKey p) out
                                (mimeTypeOf (format p))])).
Proof.
  intros (El & Ee) Hw Hput. rewrite processItem_run, El, Ee. cbn [fst].
  now rewrite Hw, Hput.
Qed.

(** When the encoder fails the request fails with its error; nothing is
    uploaded, even with a destination, and the store is as it was. *)
Theorem failed_encoding_uploads_nothing i p w l w1 e :
  layoutOf i p w = (Ok l, w1) ->
  render (canvasWidth l) (canvasHeight l) (bg l) (composites l)
    (encodingOf (format p) (quality p)) = Throw e ->
  processItem i p w = (Throw e, w1)
  /\ store w1 = store w /\ puts w1 = puts w.
Proof.
  intros El Er. pose proof (quiet_layoutOf _ _ _ _ _ El) as (Hs & Hp).
  rewrite processItem_run, El. unfold encode, lift. rewrite Er. auto.
Qed.

Lemma quiet_processItem i p : wantsUpload p = false -> quiet (processItem i p).
Proof.
  intros Hw w r w' H. rewrite processItem_run in H.
  destruct (layoutOf i p w) as [[l | e] w1] eqn:El;
    pose proof (quiet_layoutOf _ _ _ _ _ El) as Hq.
  - destruct (fst (encode p l w1)); [ rewrite Hw in H | ];
      injection H as _ <-; exact Hq.
  - injection H as _ <-. exact Hq.
Qed.

Lemma quiet_executeFrom cof items : forall i acc,
  Forall (fun p => wantsUpload p = false) items ->
  quiet (executeFrom cof i items acc).
Proof.
  induction items as [ | p rest IH ]; intros i acc Hall; cbn [executeFrom].
  - apply quiet_ret.
  - inversion Hall as [ | ? ? Hp Hrest ]; subst.
    intros w r w' H.
    destruct (processItem i p w) as [[item | e] w1] eqn:Ep;
      pose proof (quiet_processItem _ _ Hp _ _ _ Ep) as (Hs1 & Hp1).
    + apply (IH _ _ Hrest) in H as (Hs & Hpu). split; congruence.
    + destruct cof.
      * apply (IH _ _ Hrest) in H as (Hs & Hpu). split; congruence.
      * injection H as _ <-. auto.
Qed.

(** A batch in which no request names both a destination bucket and a
    destination key leaves the store as it was and makes no upload, under
    either failure policy and whatever fails. *)
Theorem batch_without_destination_writes_nothing cof items w r w' :
  Forall (fun p => wantsUpload p = false) items ->
  execute cof items w = (r, w') ->
  store w' = store w /\ puts w' = puts w.
Proof.
  intros Hall H. exact (quiet_executeFrom cof items 0 [] Hall _ _ _ H).
Qed.

End MoreResults.

Section Defaults.
Context `{B : Backend} {L : BackendLaws B}.

Lemma left_alignment_at_zero W s (ims : list (Image Buffer)) : forall off,
  Forall (fun o => left_ o = 0) (compositesFrom left W s off ims).
Proof.
  induction ims as [ | im rest IH ]; intros off; cbn [compositesFrom];
    constructor; auto.
Qed.

(** A request that sets only the source bucket and the keys, and succeeds:
    nothing is uploaded and the result has no [uploaded] field; the encoded
    image is attached under [data] as [stitched.png] of type [image/png]; the
    background is transparent; every image is scaled to the width of the
    widest source and placed at the left edge; the canvas is as high as the
    images together, without spacing. *)
Theorem default_request_result i bucket keysParam w item w' :
  processItem i (defaultRequest bucket keysParam) w = (Ok item, w') ->
  exists l json b,
    layoutOf i (defaultRequest bucket keysParam) w = (Ok l, w')
    /\ item = Item json (Some ("data", b))
    /\ json_uploaded json = None
    /\ bin_mimeType b = "image/png"
    /\ bin_fileName b = "stitched.png"
    /\ store w' = store w /\ puts w' = puts w
    /\ bg l = transparent
    /\ canvasWidth l = Math_max (map width (fetched l))
    /\ Forall (fun im => width im = canvasWidth l) (images l)
    /\ canvasHeight l = sumZ (map height (images l))
    /\ Forall (fun o => left_ o = 0) (composites l).
Proof.
  intros H. pose proof H as Hrun. rewrite processItem_run in Hrun.
  destruct (layoutOf i (defaultRequest bucket keysParam) w) as [[l | e] w1] eqn:El;
    [ | discriminate ].
  destruct (fst (encode (defaultRequest bucket keysParam) l w1)) as [out | e];
    [ | discriminate ].
  change (wantsUpload (defaultRequest bucket keysParam)) with false in Hrun.
  injection Hrun as <- <-.
  pose proof (quiet_layoutOf _ _ _ _ _ El) as (Hs & Hp).
  pose proof (layout_normalised _ _ _ _ _ El) as (Hcw & Hn).
  pose proof (canvasHeight_eq _ _ _ _ _ El) as Hc.
  pose proof (layoutOf_Ok _ _ _ _ _ El) as (_ & _ & _ & _ & _ & _ & Hbg & Hcomp).
  do 3 eexists. split; [ reflexivity | ]. split; [ reflexivity | ].
  cbn [json_uploaded bin_mimeType bin_fileName].
  repeat split; auto.
  - apply (Forall2_Forall_r _ _ _ _ Hn). intros a b0 (_ & Hb). exact Hb.
  - rewrite Hc. cbn [defaultRequest spacing defaultParams]. lia.
  - rewrite Hcomp. cbn [defaultRequest alignment spacing defaultParams].
    apply left_alignment_at_zero.
Qed.

End Defaults.


Lemma png_ignores_quality_witness :
  processItem 0 (withQuality 5 (Fake.request "a.png,b.png" 10 left)) Fake.shelf
  = processItem 0 (Fake.request "a.png,b.png" 10 left) Fake.shelf.
Proof. apply png_ignores_quality. reflexivity. Defined.

Lemma failed_upload_fails_the_request_witness :
  processItem (B := Fake.readOnly) 0 (Fake.requestTo "out" "stack.png") Fake.shelf
  = (Throw (mkError "Access Denied." None),
     mkWorld (store Fake.shelf)
       [EvGet "in" "a.png"; EvGet "in" "b.png";
        EvPut "out" "stack.png" (100, 140) "image/png"]).
Proof.
  apply (failed_upload_fails_the_request (B := Fake.readOnly) 0
           (Fake.requestTo "out" "stack.png") Fake.shelf
           (mkLayout ["a.png"; "b.png"]
              [mkImage (100, 50) 100 50; mkImage (100, 80) 100 80]
              [mkImage (100, 50) 100 50; mkImage (100, 80) 100 80]
              100 140 transparent
              [mkOverlay (100, 50) 0 0; mkOverlay (100, 80) 60 0])
           (mkWorld (store Fake.shelf) [EvGet "in" "a.png"; EvGet "in" "b.png"])
           (100, 140));
    [ split; run | reflexivity | reflexivity ].
Defined.

Lemma failed_encoding_uploads_nothing_witness :
  processItem (B := Fake.noEncoder) 0 (Fake.requestTo "out" "stack.png") Fake.shelf
  = (Throw (mkError "Input image exceeds pixel limit" None),
     mkWorld (store Fake.shelf) [EvGet "in" "a.png"; EvGet "in" "b.png"]).
Proof.
  apply (failed_encoding_uploads_nothing (B := Fake.noEncoder) 0
           (Fake.requestTo "out" "stack.png") Fake.shelf
           (mkLayout ["a.png"; "b.png"]
              [mkImage (100, 50) 100 50; mkImage (100, 80) 100 80]
              [mkImage (100, 50) 100 50; mkImage (100, 80) 100 80]
              100 140 transparent
              [mkOverlay (100, 50) 0 0; mkOverlay (100, 80) 60 0])
           (mkWorld (store Fake.shelf) [EvGet "in" "a.png"; EvGet "in" "b.png"]));
    [ run | reflexivity ].
Defined.

Lemma batch_without_destination_writes_nothing_witness :
  exists r w',
    execute false Fake.batch Fake.shelf = (r, w')
    /\ store w' = store Fake.shelf /\ puts w' = [].
Proof.
  destruct (execute false Fake.batch Fake.shelf) as [r w'] eqn:E.
  exists r, w'. split; [ reflexivity | ].
  apply (batch_without_destination_writes_nothing false Fake.batch Fake.shelf r w');
    [ repeat constructor | exact E ].
Defined.

Lemma default_request_result_witness :
  exists item w' l,
    processItem 0 (defaultRequest "in" (KeysString "a.png,c.png")) Fake.shelf
    = (Ok item, w')
    /\ layoutOf 0 (defaultRequest "in" (KeysString "a.png,c.png")) Fake.shelf
       = (Ok l, w')
    /\ canvasHeight l = sumZ (map height (images l))
    /\ Forall (fun im => width im = canvasWidth l) (images l).
Proof.
  destruct (processItem 0 (defaultRequest "in" (KeysString "a.png,c.png")) Fake.shelf)
    as [[item | e] w'] eqn:E; [ | vm_compute in E; discriminate E ].
  destruct (default_request_result (L := Fake_laws) _ _ _ _ _ _ E)
    as (l & json & b & El & _ & _ & _ & _ & _ & _ & _ & _ & Hw & Hh & _).
  exists item, w', l. auto.
Defined.

(** When the upload succeeds the request returns the item with the
    destination bucket, the destination key and the etag the store returned
    in its [uploaded] field, and the store is the one the upload left. *)
Theorem successful_upload_reports_etag `{B : Backend} i p w l w1 out s' etag :
  encoded i p w l w1 out ->
  wantsUpload p = true ->
  putObject (store w1) (destinationBucket p) (destinationKey p) out
    (bufferLength out) (mimeTypeOf (format p)) = (s', Ok etag) ->
  exists json bin w',
    processItem i p w = (Ok (Item json bin), w')
    /\ json_uploaded json
       = Some (mkUploaded (destinationBucket p) (destinationKey p) etag)
    /\ store w' = s'
    /\ trace w' = trace w1 ++ [EvPut (destinationBucket p) (destinationKey p) out
                                 (mimeTypeOf (format p))].
Proof.
  intros (El & Ee) Hw Hput. rewrite processItem_run, El, Ee. cbn [fst].
  rewrite Hw, Hput. unfold newItem. rewrite Hw.
  do 3 eexists. split; [ reflexivity | ]. repeat split.
Qed.

Lemma successful_upload_reports_etag_witness :
  exists json bin w',
    processItem 0 (Fake.requestTo "out" "stack.png") Fake.shelf
    = (Ok (Item json bin), w')
    /\ json_uploaded json = Some (mkUploaded "out" "stack.png" (Some "etag-1"))
    /\ store w' = (("out", "stack.png"), (100, 140)) :: store Fake.shelf.
Proof.
  destruct (successful_upload_reports_etag 0 (Fake.requestTo "out" "stack.png")
              Fake.shelf
              (mkLayout ["a.png"; "b.png"]
                 [mkImage (100, 50) 100 50; mkImage (100, 80) 100 80]
                 [mkImage (100, 50) 100 50; mkImage (100, 80) 100 80]
                 100 140 transparent
                 [mkOverlay (100, 50) 0 0; mkOverlay (100, 80) 60 0])
              (mkWorld (store Fake.shelf) [EvGet "in" "a.png"; EvGet "in" "b.png"])
              (100, 140)
              ((("out", "stack.png"), (100, 140)) :: store Fake.shelf)
              (Some "etag-1"))
    as (json & bin & w' & H1 & H2 & H3 & _);
    [ split; run | reflexivity | reflexivity | ].
  exists json, bin, w'. auto.
Defined.
